(** * Story carousel: navigation, gestures and progress drivers

    A shallow embedding of the logic of the two page components
    [PhotoCarouselPage] and [VideoCarouselPage] and of the hook
    [useWheelAndSwipe] they share.

    Conventions.
    - An item index is a JavaScript number that only ever holds an integer; it
      is a [Z], and the JavaScript remainder operator [%] (truncating, sign of
      the dividend) is [Z.rem].  Sums and remainders of such numbers are
      exact as long as every operand and result is a safe integer (of
      magnitude at most [Nav.maxSafeInteger], 2^53 - 1); item counts are
      array lengths and the pages only pass [index + 1] and [index - 1].
    - Timestamps, pixel coordinates and wheel deltas are JavaScript numbers
      holding finite values; they are exact rationals [Q].  Comparisons,
      [Math.abs], [Math.min], [Math.max] and subtraction are read exactly.
    - [HTMLMediaElement.duration] may be [NaN] or [Infinity]; the small type
      [JS.num] keeps those values.
    - React refs ([useRef]) and state ([useState]) are record fields; a
      callback handed to the hook is a command ([nav]) returned by the
      handler and executed by the page. *)

From Stdlib Require Import ZArith QArith Qminmax Qabs Lia Lqa List Bool.
Import ListNotations.

(* ================================================================== *)
(** ** JavaScript numbers *)

Module JS.

(** A number that may be [NaN] or infinite (signed zeros are identified). *)
Inductive num : Type :=
| NaN
| Fin (q : Q)
| PosInf
| NegInf.

(** [a || b] on numbers: [a] when truthy, i.e. neither [NaN] nor zero. *)
Definition or (a b : num) : num :=
  match a with
  | NaN => b
  | Fin q => if Qeq_bool q 0 then b else a
  | PosInf | NegInf => a
  end.

(** [Math.max(a, b)]. *)
Definition max (a b : num) : num :=
  match a, b with
  | NaN, _ | _, NaN => NaN
  | PosInf, _ | _, PosInf => PosInf
  | NegInf, x | x, NegInf => x
  | Fin x, Fin y => Fin (Qmax x y)
  end.

(** [Math.min(a, b)]. *)
Definition min (a b : num) : num :=
  match a, b with
  | NaN, _ | _, NaN => NaN
  | NegInf, _ | _, NegInf => NegInf
  | PosInf, x | x, PosInf => x
  | Fin x, Fin y => Fin (Qmin x y)
  end.

(** Sign of a rational as the infinity it produces when divided by zero. *)
Definition signed_inf (q : Q) : num :=
  if Qle_bool q 0 then (if Qeq_bool q 0 then NaN else NegInf) else PosInf.

Definition flip (a : num) : num :=
  match a with
  | PosInf => NegInf
  | NegInf => PosInf
  | _ => a
  end.

(** [a / b]. *)
Definition div (a b : num) : num :=
  match a, b with
  | NaN, _ | _, NaN => NaN
  | Fin x, Fin y => if Qeq_bool y 0 then signed_inf x else Fin (x / y)
  | Fin _, (PosInf | NegInf) => Fin 0
  | (PosInf | NegInf), (PosInf | NegInf) => NaN
  | PosInf, Fin y => if Qle_bool 0 y then PosInf else NegInf
  | NegInf, Fin y => if Qle_bool 0 y then NegInf else PosInf
  end.

(** [a * b], for a finite factor [b]. *)
Definition scale (a : num) (b : Q) : num :=
  match a with
  | NaN => NaN
  | Fin x => Fin (x * b)
  | PosInf => signed_inf b
  | NegInf => flip (signed_inf b)
  end.

(** [x < y] on finite numbers, as a boolean. *)
Definition ltb (x y : Q) : bool := negb (Qle_bool y x).

End JS.

(* ================================================================== *)
(** ** Navigation controller: [go], [next], [prev] *)

Module Nav.

(** [Number.MAX_SAFE_INTEGER]: up to this magnitude integers are doubles
    and their sums are computed exactly. *)
Definition maxSafeInteger : Z := 9007199254740991.

(** [go]: [setIndex(() => (i + total) % total)]; the value stored.  The sum
    is the exact one; it is what the code computes while [i], [total] and
    [i + total] are safe integers. *)
Definition go (total i : Z) : Z := Z.rem (i + total) total.

(** [next = () => go(index + 1)]. *)
Definition next (total index : Z) : Z := go total (index + 1).

(** [prev = () => go(index - 1)]. *)
Definition prev (total index : Z) : Z := go total (index - 1).

(** The contract as the specification words it,
    [((targetIndex % itemCount) + itemCount) % itemCount], with the same
    JavaScript remainder. *)
Definition goTo_spec (itemCount targetIndex : Z) : Z :=
  Z.rem (Z.rem targetIndex itemCount + itemCount) itemCount.

End Nav.

(* ================================================================== *)
(** ** Input listener: the hook [useWheelAndSwipe] *)

Module Gesture.

(** What a handler asks of the page: the callback it invoked, if any. *)
Inductive nav : Type :=
| NavNone
| NavNext
| NavPrev.

(** The part of a [Touch] the handlers read. *)
Record touch : Type := Touch { clientX : Q; clientY : Q }.

(** The three refs of the hook, and the deadlines of the [setTimeout]
    callbacks it has pending in the browser, oldest first. *)
Record hook : Type := Hook {
  touchStartX : option Q;
  touchStartY : option Q;
  isThrottled : bool;
  timers : list Q
}.

Definition mounted : hook :=
  {| touchStartX := None; touchStartY := None;
     isThrottled := false; timers := [] |}.

(** The result of running a handler: it threw (reading a property of
    [undefined]) or it returned, leaving the hook in some state. *)
Inductive outcome : Type :=
| Threw
| Done (h : hook) (n : nav).

Definition wheelDeltaThreshold : Q := 20.
Definition wheelThrottleMs : Q := 400.
Definition swipeThresholdPx : Q := 40.

(** [onWheel], run at time [now] on an event with the given [deltaY]. *)
Definition onWheel (now deltaY : Q) (h : hook) : hook * nav :=
  if isThrottled h then (h, NavNone)
  else if JS.ltb (Qabs deltaY) wheelDeltaThreshold then (h, NavNone)
  else
    ({| touchStartX := touchStartX h; touchStartY := touchStartY h;
        isThrottled := true;
        timers := timers h ++ [now + wheelThrottleMs] |},
     if JS.ltb 0 deltaY then NavNext else NavPrev).

(** The callback given to [setTimeout]: [isThrottled.current = false].
    The browser drops the timer it has just run. *)
Definition onTimeout (h : hook) : hook :=
  {| touchStartX := touchStartX h; touchStartY := touchStartY h;
     isThrottled := false; timers := tl (timers h) |}.

(** [onTouchStart]: [e.touches[0]] is [undefined] on an empty list. *)
Definition onTouchStart (touches : list touch) (h : hook) : outcome :=
  match touches with
  | [] => Threw
  | t :: _ =>
      Done {| touchStartX := Some (clientX t); touchStartY := Some (clientY t);
              isThrottled := isThrottled h; timers := timers h |} NavNone
  end.

(** [onTouchMove] only calls [preventDefault]; the hook is untouched. *)
Definition onTouchMove (cancelable : bool) (h : hook) : outcome :=
  Done h NavNone.

(** [onTouchEnd]. *)
Definition onTouchEnd (changedTouches : list touch) (h : hook) : outcome :=
  match touchStartX h, touchStartY h with
  | Some sx, Some sy =>
      match changedTouches with
      | [] => Threw
      | t :: _ =>
          let dx := clientX t - sx in
          let dy := clientY t - sy in
          let isHorizontal := JS.ltb (Qabs dy) (Qabs dx) in
          let threshold := swipeThresholdPx in
          Done {| touchStartX := None; touchStartY := None;
                  isThrottled := isThrottled h; timers := timers h |}
               (if isHorizontal && JS.ltb threshold (Qabs dx)
                then (if JS.ltb dx 0 then NavNext else NavPrev)
                else NavNone)
      end
  | _, _ => Done h NavNone
  end.

(** The events the hook listens to, each with the time its handler runs. *)
Inductive event : Type :=
| Wheel (t deltaY : Q)
| Timeout (t : Q)
| TouchStart (t : Q) (touches : list touch)
| TouchMove (t : Q) (cancelable : bool)
| TouchEnd (t : Q) (changedTouches : list touch).

Definition time_of (e : event) : Q :=
  match e with
  | Wheel t _ | Timeout t | TouchStart t _ | TouchMove t _ | TouchEnd t _ => t
  end.

(** An exception escaping a listener is reported by the browser; the page
    goes on with the state the handler left, here the state before it. *)
Definition settle (h : hook) (o : outcome) : hook * nav :=
  match o with
  | Threw => (h, NavNone)
  | Done h' n => (h', n)
  end.

Definition handle (h : hook) (e : event) : hook * nav :=
  match e with
  | Wheel t deltaY => onWheel t deltaY h
  | Timeout _ => (onTimeout h, NavNone)
  | TouchStart _ touches => settle h (onTouchStart touches h)
  | TouchMove _ cancelable => settle h (onTouchMove cancelable h)
  | TouchEnd _ changedTouches => settle h (onTouchEnd changedTouches h)
  end.

(** What the event loop allows at time [clock]: time does not go back, and
    a timer runs no earlier than its deadline (all delays are equal, so the
    oldest timer is the next to run). *)
Definition enabled (clock : Q) (h : hook) (e : event) : bool :=
  Qle_bool clock (time_of e) &&
  match e with
  | Timeout t =>
      match timers h with
      | d :: _ => Qle_bool d t
      | [] => false
      end
  | _ => true
  end.

(** Run a sequence of events; each event is paired with the callback its
    handler invoked.  [None] when the sequence is not a possible one. *)
Fixpoint exec (clock : Q) (h : hook) (es : list event)
  : option (list (event * nav)) :=
  match es with
  | [] => Some []
  | e :: es' =>
      if enabled clock h e then
        let (h', n) := handle h e in
        option_map (cons (e, n)) (exec (time_of e) h' es')
      else None
  end.

(** The throttle flag and the timer queue go together: not throttled and
    nothing pending, or throttled and exactly one timer pending. *)
Definition timer_inv (h : hook) : Prop :=
  (isThrottled h = false /\ timers h = []) \/
  (isThrottled h = true /\ exists d, timers h = [d]).

End Gesture.

(* ================================================================== *)
(** ** A viewer: the index, the index its callbacks closed over, the hook *)

Module Viewer.

Import Gesture.

(** [index] is the React state; [seen] is the [index] of the latest render,
    the one [next] and [prev] were built from ([useCallback] with
    dependency [index]). *)
Record viewer : Type := Viewer {
  index : Z;
  seen : Z;
  hook : Gesture.hook
}.

Definition initial : viewer :=
  {| index := 0; seen := 0; hook := Gesture.mounted |}.

Definition callNext (total : Z) (v : viewer) : viewer :=
  {| index := Nav.next total (seen v); seen := seen v; hook := hook v |}.

Definition callPrev (total : Z) (v : viewer) : viewer :=
  {| index := Nav.prev total (seen v); seen := seen v; hook := hook v |}.

Definition dispatch (total : Z) (v : viewer) (n : nav) : viewer :=
  match n with
  | NavNone => v
  | NavNext => callNext total v
  | NavPrev => callPrev total v
  end.

(** Everything that can happen to a viewer. [PhotoTimerDone] is the
    [next()] of the photo timer's [step], [VideoEnded] the video element's
    [onEnded]; [Rerender] is React rendering the component again. *)
Inductive action : Type :=
| Input (e : Gesture.event)
| ClickNext
| ClickPrev
| PhotoTimerDone
| VideoEnded
| Rerender.

Definition act (total : Z) (v : viewer) (a : action) : viewer :=
  match a with
  | Input e =>
      let (h', n) := Gesture.handle (hook v) e in
      dispatch total {| index := index v; seen := seen v; hook := h' |} n
  | ClickNext | PhotoTimerDone | VideoEnded => callNext total v
  | ClickPrev => callPrev total v
  | Rerender => {| index := index v; seen := index v; hook := hook v |}
  end.

Definition run (total : Z) (v : viewer) (acts : list action) : viewer :=
  fold_left (act total) acts v.

(** Both the stored index and the index the callbacks closed over lie in
    [[0, total)]. *)
Definition in_range (total : Z) (v : viewer) : Prop :=
  (0 <= index v < total)%Z /\ (0 <= seen v < total)%Z.

End Viewer.

(* ================================================================== *)
(** ** Photo viewer: the timed progress driver and what is rendered *)

Module Photo.

Import Gesture.

(** The state of [PhotoCarouselPage] the timer touches: the React states
    [index] and [progress], the refs [startTs] and [raf] ([raf] here says
    whether a frame callback is pending), and [effectIndex], the [index] of
    the render whose timer effect is installed (its [step] calls the
    [next] of that render). *)
Record page : Type := Page {
  index : Z;
  progress : Q;
  startTs : Q;
  raf : bool;
  effectIndex : Z
}.

Definition durationMs : Q := 5000.

(** [DEMO_IMAGES.length]. *)
Definition imageCount : Z := 4.

(** The body of the timer effect, run at time [now]: cancel the pending
    frame, [setProgress(0)], restart the clock, request a frame. *)
Definition effect (now : Q) (p : page) : page :=
  {| index := index p; progress := 0; startTs := now; raf := true;
     effectIndex := index p |}.

(** The page just mounted at time [now]. *)
Definition mount (now : Q) : page :=
  effect now {| index := 0; progress := 0; startTs := 0; raf := false;
                effectIndex := 0 |}.

(** [step], run at time [now]: the new state and whether [next()] was
    called.  A frame is requested again only in the [else] branch. *)
Definition step (now : Q) (p : page) : page * nav :=
  let elapsed := now - startTs p in
  let pr := Qmin 1 (elapsed / durationMs) in
  if Qle_bool 1 pr then
    ({| index := index p; progress := pr; startTs := startTs p;
        raf := raf p; effectIndex := effectIndex p |}, NavNext)
  else
    ({| index := index p; progress := pr; startTs := startTs p;
        raf := true; effectIndex := effectIndex p |}, NavNone).

(** [next] and [prev] as built by the render the effect belongs to. *)
Definition dispatch (total : Z) (p : page) (n : nav) : page :=
  match n with
  | NavNone => p
  | NavNext =>
      {| index := Nav.next total (effectIndex p); progress := progress p;
         startTs := startTs p; raf := raf p; effectIndex := effectIndex p |}
  | NavPrev =>
      {| index := Nav.prev total (effectIndex p); progress := progress p;
         startTs := startTs p; raf := raf p; effectIndex := effectIndex p |}
  end.

(** An animation frame at time [now]: the pending callback, if any, is
    consumed and run. *)
Definition frame (total : Z) (now : Q) (p : page) : page * nav :=
  if raf p then
    let (p', n) :=
      step now {| index := index p; progress := progress p;
                  startTs := startTs p; raf := false;
                  effectIndex := effectIndex p |} in
    (dispatch total p' n, n)
  else (p, NavNone).

(** Successive animation frames of one installed effect, with the calls
    each of them made. *)
Fixpoint frames (total : Z) (p : page) (ts : list Q) : page * list nav :=
  match ts with
  | [] => (p, [])
  | now :: ts' =>
      let (p1, n) := frame total now p in
      let (p2, ns) := frames total p1 ts' in
      (p2, n :: ns)
  end.

Definition calls_next (n : nav) : bool :=
  match n with NavNext => true | _ => false end.

(** How many times the frames [ts] called [next()]. *)
Definition next_calls (total : Z) (ts : list Q) (p : page) : nat :=
  length (filter calls_next (snd (frames total p ts))).

(** The width, in percent, of the [i]-th bar of the timeline:
    [i === index ? progress * 100 : i < index ? 100 : 0]. *)
Definition barWidth (p : page) (i : Z) : Q :=
  if (i =? index p)%Z then progress p * 100
  else if (i <? index p)%Z then 100 else 0.

(** What one call of the component function puts on screen. *)
Definition render (total : Z) (p : page) : list Q :=
  map (fun k => barWidth p (Z.of_nat k)) (seq 0 (Z.to_nat total)).

(** React renders, commits what was rendered, and only then runs the
    effects whose dependencies changed: the timer effect when [index]
    differs from the one it was installed for. *)
Definition commit (total : Z) (now : Q) (p : page) : list Q * page :=
  (render total p,
   if (index p =? effectIndex p)%Z then p else effect now p).

End Photo.

(* ================================================================== *)
(** ** Video viewer: one [Segment] of the timeline *)

Module Segment.

(** The properties of the video element that [update] reads. *)
Record video : Type := Video { duration : JS.num; currentTime : Q }.

(** The state [progress] and whether a frame callback is pending. *)
Record segment : Type := Seg { progress : JS.num; raf : bool }.

Definition initial : segment := {| progress := JS.Fin 0; raf := false |}.

(** [Math.max(0.01, v.duration || 0)]. *)
Definition clampedDuration (v : video) : JS.num :=
  JS.max (JS.Fin (1 # 100)) (JS.or (duration v) (JS.Fin 0)).

(** [update]: one frame of the polling loop. *)
Definition update (v : video) (s : segment) : segment :=
  let d := clampedDuration v in
  let value := JS.min (JS.Fin 1) (JS.div (JS.Fin (currentTime v)) d) in
  {| progress := value; raf := true |}.

(** The body of the effect for the given [active] and [videoRef]. *)
Definition effect (active : bool) (videoRef : option video) (s : segment)
  : segment :=
  match videoRef with
  | None => s
  | Some _ =>
      if active then {| progress := progress s; raf := true |}
      else {| progress := JS.Fin 0; raf := false |}
  end.

(** An animation frame: the pending [update], if any, runs. *)
Definition frame (v : video) (s : segment) : segment :=
  if raf s then update v s else s.

(** The width, in percent, of the bar: [active ? progress * 100 : 0]. *)
Definition render (active : bool) (s : segment) : JS.num :=
  if active then JS.scale (progress s) 100 else JS.Fin 0.

End Segment.

(* ================================================================== *)
(** ** Runs of the hook, of a segment and of the photo slide show *)

Module Session.

(** The hook after its handlers have run on the events [es], in order. *)
Definition hook_after (h : Gesture.hook) (es : list Gesture.event)
  : Gesture.hook :=
  fold_left (fun h' e => fst (Gesture.handle h' e)) es h.

(** One whole touch gesture: [onTouchStart] on [touches], then [onTouchEnd]
    on [changedTouches]. *)
Definition gesture (touches changedTouches : list Gesture.touch)
  (h : Gesture.hook) : Gesture.hook * Gesture.nav :=
  Gesture.settle
    (fst (Gesture.settle h (Gesture.onTouchStart touches h)))
    (Gesture.onTouchEnd changedTouches
       (fst (Gesture.settle h (Gesture.onTouchStart touches h)))).

(** The two families of events the hook handles. *)
Definition is_touch (e : Gesture.event) : bool :=
  match e with
  | Gesture.TouchStart _ _ | Gesture.TouchMove _ _ | Gesture.TouchEnd _ _ => true
  | Gesture.Wheel _ _ | Gesture.Timeout _ => false
  end.

Definition is_wheel (e : Gesture.event) : bool := negb (is_touch e).

(** No [Rerender] among the actions: they all happen within one render. *)
Definition same_render (acts : list Viewer.action) : Prop :=
  Forall (fun a => a <> Viewer.Rerender) acts.

(** The cleanup a [Segment] effect returned: [cancelAnimationFrame]. *)
Definition cleanup (s : Segment.segment) : Segment.segment :=
  {| Segment.progress := Segment.progress s; Segment.raf := false |}.

(** What happens to a [Segment] after it is mounted: React runs its effect
    again for new [active] and [videoRef] (cleanup first), or an animation
    frame comes while the video element reads as [v]. *)
Inductive segment_event : Type :=
| Rerun (active : bool) (videoRef : option Segment.video)
| Frame (v : Segment.video).

Definition segment_step (s : Segment.segment) (e : segment_event)
  : Segment.segment :=
  match e with
  | Rerun active videoRef => Segment.effect active videoRef (cleanup s)
  | Frame v => Segment.frame v s
  end.

Definition segment_run (s : Segment.segment) (es : list segment_event)
  : Segment.segment :=
  fold_left segment_step es s.

(** The element read at every frame of [es] reports a time that is not
    negative. *)
Definition times_nonneg (es : list segment_event) : Prop :=
  Forall (fun e => match e with
                   | Frame v => 0 <= Segment.currentTime v
                   | Rerun _ _ => True
                   end) es.

(** A number in the unit interval. *)
Definition unit_number (x : JS.num) : Prop :=
  exists p, x = JS.Fin p /\ 0 <= p <= 1.

(** Animation frames of the photo page, React rendering and running the
    effects after each of them; [ts] pairs the time of each frame with the
    time at which the effects that follow it run. *)
Fixpoint slideshow (total : Z) (p : Photo.page) (ts : list (Q * Q))
  : Photo.page :=
  match ts with
  | [] => p
  | (now, later) :: ts' =>
      slideshow total
        (snd (Photo.commit total later (fst (Photo.frame total now p)))) ts'
  end.

End Session.

(* ================================================================== *)
(** ** Video viewer: the video elements and the array of refs *)

Module Player.

(** The part of an [HTMLVideoElement] the autoplay effect changes. *)
Record element : Type := Element { currentTime : Q; paused : bool }.

(** [videoRefs.current]: an array that may have holes. *)
Definition refs : Type := list (option element).

(** [arr[i]]: [undefined] in a hole and past the end. *)
Definition lookup (i : nat) (l : refs) : option element :=
  match nth_error l i with
  | Some (Some e) => Some e
  | _ => None
  end.

(** [arr[i] = el]: the array grows, with holes, when [i] is past its end. *)
Fixpoint assign (i : nat) (el : element) (l : refs) : refs :=
  match i, l with
  | O, [] => [Some el]
  | O, _ :: l' => Some el :: l'
  | S i', [] => None :: assign i' el []
  | S i', x :: l' => x :: assign i' el l'
  end.

(** The ref callback of the [i]-th video:
    [(el) => { if (el) videoRefs.current[i] = el }]. *)
Definition setRef (i : nat) (el : option element) (l : refs) : refs :=
  match el with
  | None => l
  | Some e => assign i e l
  end.

(** The ref callbacks React has called, in order: slot and element (or
    [null]). *)
Definition setRefs (calls : list (nat * option element)) (l : refs) : refs :=
  fold_left (fun l' c => setRef (fst c) (snd c) l') calls l.

(** [v.play()]: playback starts, or the browser rejects the call and the
    rejection is swallowed by [catch(() => {})]. *)
Definition play (allowed : bool) (v : element) : element :=
  {| currentTime := currentTime v;
     paused := if allowed then false else paused v |}.

(** [v.pause()]. *)
Definition pause (v : element) : element :=
  {| currentTime := currentTime v; paused := true |}.

(** The callback of [videoRefs.current.forEach], at position [i]. *)
Definition visit (index : Z) (allowed : bool) (i : nat) (v : option element)
  : option element :=
  match v with
  | None => None
  | Some e =>
      Some (if (Z.of_nat i =? index)%Z
            then play allowed {| currentTime := 0; paused := paused e |}
            else pause e)
  end.

Fixpoint autoplayFrom (index : Z) (allowed : bool) (i : nat) (l : refs)
  : refs :=
  match l with
  | [] => []
  | v :: l' => visit index allowed i v :: autoplayFrom index allowed (S i) l'
  end.

(** The effect that runs when [index] changes: play the current video from
    its start, pause the others. *)
Definition autoplay (index : Z) (allowed : bool) (l : refs) : refs :=
  autoplayFrom index allowed 0 l.

End Player.

(* ================================================================== *)
(** ** Overlay visibility and the menu *)

Module Overlay.

(** Where a click lands.  The three control buttons call
    [e.stopPropagation()]; every other element is inside the root [div],
    whose [onClick] toggles the overlay, and lets the click bubble up to it.
    (The menu link that leaves the page is not part of this model.) *)
Inductive target : Type :=
| Background
| PreviousButton
| MenuButton
| NextButton
| LogoButton
| MenuClose
| MenuAnchor.

(** [visible] and [menuOpen] are React states; [seenVisible] is the
    [visible] of the latest render, which the [mousemove] listener closed
    over. *)
Record overlay : Type := Overlay {
  visible : bool;
  seenVisible : bool;
  menuOpen : bool
}.

(** [useVisibilityToggle(true)], menu closed. *)
Definition initial : overlay :=
  {| visible := true; seenVisible := true; menuOpen := false |}.

(** [toggle = () => setVisible((v) => !v)]. *)
Definition toggle (s : overlay) : overlay :=
  {| visible := negb (visible s); seenVisible := seenVisible s;
     menuOpen := menuOpen s |}.

(** [onMove = () => { if (!visible) setVisible(true) }]. *)
Definition onMove (s : overlay) : overlay :=
  if negb (seenVisible s)
  then {| visible := true; seenVisible := seenVisible s;
          menuOpen := menuOpen s |}
  else s.

Definition setMenuOpen (b : bool) (s : overlay) : overlay :=
  {| visible := visible s; seenVisible := seenVisible s; menuOpen := b |}.

(** Does a click on [t] reach the root [div]? *)
Definition bubbles (t : target) : bool :=
  match t with
  | PreviousButton | MenuButton | NextButton => false
  | _ => true
  end.

(** The handler of the element itself, as far as the overlay goes. *)
Definition own_handler (t : target) (s : overlay) : overlay :=
  match t with
  | MenuButton => setMenuOpen true s
  | MenuClose => setMenuOpen false s
  | _ => s
  end.

Definition click (t : target) (s : overlay) : overlay :=
  let s' := own_handler t s in
  if bubbles t then toggle s' else s'.

Inductive action : Type :=
| Click (t : target)
| MouseMove
| Render.

Definition act (s : overlay) (a : action) : overlay :=
  match a with
  | Click t => click t s
  | MouseMove => onMove s
  | Render => {| visible := visible s; seenVisible := visible s;
                 menuOpen := menuOpen s |}
  end.

(** The actions in order, React rendering after each of them. *)
Definition run (s : overlay) (acts : list action) : overlay :=
  fold_left (fun s' a => act (act s' a) Render) acts s.

(** The number of clicks that reached the root [div] since the last mouse
    move, given [c] of them before [a]. *)
Definition count_taps (c : nat) (a : action) : nat :=
  match a with
  | Click t => if bubbles t then S c else c
  | MouseMove => 0%nat
  | Render => c
  end.

Definition taps_since_move (acts : list action) : nat :=
  fold_left count_taps acts 0%nat.

End Overlay.

(* ================================================================== *)
(** * Properties *)

(** ** Comparisons *)

Lemma ltb_lt (x y : Q) : JS.ltb x y = true <-> x < y.
Proof.
  unfold JS.ltb. rewrite negb_true_iff.
  split; intro H.
  - apply Qnot_le_lt. intro Hle. apply Qle_bool_iff in Hle. congruence.
  - destruct (Qle_bool y x) eqn:E; [|reflexivity].
    apply Qle_bool_iff in E. exfalso. apply (Qlt_not_le _ _ H E).
Qed.

Lemma ltb_ge (x y : Q) : JS.ltb x y = false <-> y <= x.
Proof.
  unfold JS.ltb. rewrite negb_false_iff. apply Qle_bool_iff.
Qed.

(** ** Navigation controller *)

Section NavFacts.

Variable n : Z.
Hypothesis n_pos : (0 < n)%Z.

(** From [-n] upwards [go] is the mathematical residue. *)
Lemma go_mod (i : Z) : (- n <= i)%Z -> Nav.go n i = (i mod n)%Z.
Proof using n_pos.
  intro Hi. unfold Nav.go.
  rewrite Z.rem_mod_nonneg by lia.
  rewrite <- (Z.mod_add i 1 n) by lia.
  f_equal. lia.
Qed.

(** The double remainder of the specification is the residue everywhere. *)
Lemma goTo_spec_mod (i : Z) : Nav.goTo_spec n i = (i mod n)%Z.
Proof using n_pos.
  unfold Nav.goTo_spec.
  assert (Hb : (- n < Z.rem i n < n)%Z).
  { pose proof (Z.rem_bound_abs i n ltac:(lia)). lia. }
  rewrite Z.rem_mod_nonneg by lia.
  pose proof (Z.quot_rem' i n) as Hq.
  replace (Z.rem i n + n)%Z with (i + (1 - i ÷ n) * n)%Z by lia.
  apply Z.mod_add. lia.
Qed.

Lemma go_range (i : Z) : (- n <= i)%Z -> (0 <= Nav.go n i < n)%Z.
Proof using n_pos.
  intro Hi. rewrite go_mod by exact Hi. apply Z.mod_pos_bound, n_pos.
Qed.

Lemma next_range (i : Z) : (0 <= i < n)%Z -> (0 <= Nav.next n i < n)%Z.
Proof using n_pos. intro Hi. apply go_range. lia. Qed.

Lemma prev_range (i : Z) : (0 <= i < n)%Z -> (0 <= Nav.prev n i < n)%Z.
Proof using n_pos. intro Hi. apply go_range. lia. Qed.

Lemma prev_next (i : Z) : (0 <= i < n)%Z -> Nav.prev n (Nav.next n i) = i.
Proof using n_pos.
  intro Hi. unfold Nav.prev, Nav.next.
  rewrite (go_mod (i + 1)) by lia.
  assert (Hm : (0 <= (i + 1) mod n < n)%Z) by (apply Z.mod_pos_bound, n_pos).
  rewrite go_mod by lia.
  destruct (Z.eq_dec (i + 1) n) as [E|E].
  - rewrite E, Z.mod_same by lia.
    replace (0 - 1)%Z with (n - 1 + (-1) * n)%Z by lia.
    rewrite Z.mod_add by lia. rewrite Z.mod_small; lia.
  - rewrite (Z.mod_small (i + 1)) by lia.
    replace (i + 1 - 1)%Z with i by lia. apply Z.mod_small. lia.
Qed.

End NavFacts.

(** C1 (as amended). For every item count [n > 0] and every integer target
    [i] with [-n <= i] and [i + 2n] a safe integer (so that [i], [i + n] and
    every sum [go] forms for them are computed exactly), [go] stores
    [((i % n) + n) % n]; the stored index lies in [[0, n)] and [go (i + n)]
    stores the same index as [go i]. *)
Theorem go_wraps_from_minus_total (n i : Z) :
  (0 < n)%Z -> (- n <= i)%Z -> (i + 2 * n <= Nav.maxSafeInteger)%Z ->
  Nav.go n i = Nav.goTo_spec n i /\
  (0 <= Nav.go n i < n)%Z /\
  Nav.go n (i + n) = Nav.go n i.
Proof.
  intros Hn Hi _. repeat split.
  - rewrite go_mod, goTo_spec_mod by assumption. reflexivity.
  - apply go_range; assumption.
  - apply go_range; assumption.
  - rewrite !go_mod by lia.
    rewrite <- (Z.mod_add i 1 n) by lia. f_equal. lia.
Qed.

Lemma go_wraps_from_minus_total_witness :
  Nav.go 4 (-1) = Nav.goTo_spec 4 (-1) /\
  (0 <= Nav.go 4 (-1) < 4)%Z /\
  Nav.go 4 (-1 + 4) = Nav.go 4 (-1).
Proof.
  apply (go_wraps_from_minus_total 4 (-1)); unfold Nav.maxSafeInteger; lia.
Defined.

(** C1 (as stated) fails below [-n]: with four items, [go (-5)] stores [-1],
    which is not [((-5 % 4) + 4) % 4 = 3], is outside [[0, 4)], and differs
    from what [go (-5 + 4)] stores. *)
Lemma go_below_minus_total_counterexample :
  Nav.go 4 (-5) = (-1)%Z /\
  Nav.go 4 (-5) <> Nav.goTo_spec 4 (-5) /\
  ~ (0 <= Nav.go 4 (-5) < 4)%Z /\
  Nav.go 4 (-5) <> Nav.go 4 (-5 + 4).
Proof.
  repeat split; vm_compute; try discriminate.
  intros [H _]. apply H. reflexivity.
Qed.

(** C7 (as amended). With [n > 0] items, in a viewer just rendered with
    its index [i] in [[0, n)], [next()] followed, after the render it causes,
    by [prev()] leaves the index at [i]; when [prev()] is called before that
    render, both callbacks start from [i] and the index ends at [prev] of
    [i]. *)
Theorem next_then_prev_roundtrip (n : Z) (v : Viewer.viewer) :
  (0 < n)%Z ->
  (0 <= Viewer.index v < n)%Z ->
  Viewer.seen v = Viewer.index v ->
  Nav.prev n (Nav.next n (Viewer.index v)) = Viewer.index v /\
  Viewer.index
    (Viewer.run n v [Viewer.ClickNext; Viewer.Rerender; Viewer.ClickPrev])
  = Viewer.index v /\
  Viewer.index (Viewer.run n v [Viewer.ClickNext; Viewer.ClickPrev])
  = Nav.prev n (Viewer.index v).
Proof.
  intros Hn Hi Hs.
  pose proof (prev_next n Hn (Viewer.index v) Hi) as E.
  split; [exact E|]. split.
  - cbn. rewrite Hs. exact E.
  - cbn. rewrite Hs. reflexivity.
Qed.

(** C7 (as stated) fails when no render comes between the two calls: with
    four items and index 0, [next()] stores 1, and [prev()], built by the
    same render, calls [go(0 - 1)] and stores 3, not 0. *)
Lemma next_prev_same_render_counterexample :
  Viewer.index
    (Viewer.run 4 Viewer.initial [Viewer.ClickNext; Viewer.ClickPrev]) = 3%Z /\
  Viewer.index
    (Viewer.run 4 Viewer.initial [Viewer.ClickNext; Viewer.ClickPrev])
  <> Viewer.index Viewer.initial.
Proof. split; vm_compute; [reflexivity|discriminate]. Qed.

Lemma next_then_prev_roundtrip_witness :
  Nav.prev 4 (Nav.next 4 3) = 3%Z /\
  Viewer.index
    (Viewer.run 4 {| Viewer.index := 3; Viewer.seen := 3;
                     Viewer.hook := Gesture.mounted |}
       [Viewer.ClickNext; Viewer.Rerender; Viewer.ClickPrev]) = 3%Z /\
  Viewer.index
    (Viewer.run 4 {| Viewer.index := 3; Viewer.seen := 3;
                     Viewer.hook := Gesture.mounted |}
       [Viewer.ClickNext; Viewer.ClickPrev]) = Nav.prev 4 3.
Proof.
  apply (next_then_prev_roundtrip 4
           {| Viewer.index := 3; Viewer.seen := 3;
              Viewer.hook := Gesture.mounted |});
    cbn; first [lia | reflexivity].
Defined.

(** ** The index stays in range *)

Section ViewerInvariant.

Variable total : Z.
Hypothesis total_pos : (0 < total)%Z.

Lemma callNext_in_range v :
  Viewer.in_range total v -> Viewer.in_range total (Viewer.callNext total v).
Proof using total_pos.
  intros [Hi Hs]. split; cbn; [apply next_range|]; assumption.
Qed.

Lemma callPrev_in_range v :
  Viewer.in_range total v -> Viewer.in_range total (Viewer.callPrev total v).
Proof using total_pos.
  intros [Hi Hs]. split; cbn; [apply prev_range|]; assumption.
Qed.

Lemma dispatch_in_range v n :
  Viewer.in_range total v -> Viewer.in_range total (Viewer.dispatch total v n).
Proof using total_pos.
  intro H. destruct n; cbn;
    [exact H | apply callNext_in_range, H | apply callPrev_in_range, H].
Qed.

Lemma act_in_range v a :
  Viewer.in_range total v -> Viewer.in_range total (Viewer.act total v a).
Proof using total_pos.
  intro H. destruct a; cbn.
  - destruct (Gesture.handle (Viewer.hook v) e) as [h' n].
    apply dispatch_in_range. exact H.
  - apply callNext_in_range, H.
  - apply callPrev_in_range, H.
  - apply callNext_in_range, H.
  - apply callNext_in_range, H.
  - destruct H as [Hi _]. split; cbn; exact Hi.
Qed.

Lemma run_in_range acts :
  forall v,
    Viewer.in_range total v -> Viewer.in_range total (Viewer.run total v acts).
Proof using total_pos.
  unfold Viewer.run.
  induction acts as [|a acts IH]; intros v H; cbn; [exact H|].
  apply IH, act_in_range, H.
Qed.

End ViewerInvariant.

(** C9. From index [0] with [n > 0] items, whatever sequence of [next()],
    [prev()], gesture events, photo-timer completions, video [ended] signals
    and renders occurs, the index stays in [[0, n)]. *)
Theorem index_stays_in_range (n : Z) (acts : list Viewer.action) :
  (0 < n)%Z ->
  (0 <= Viewer.index (Viewer.run n Viewer.initial acts) < n)%Z.
Proof.
  intro Hn.
  apply (run_in_range n Hn acts Viewer.initial).
  split; cbn; lia.
Qed.

Lemma index_stays_in_range_witness :
  (0 <= Viewer.index
          (Viewer.run 3 Viewer.initial
             [Viewer.ClickPrev; Viewer.Rerender; Viewer.VideoEnded;
              Viewer.PhotoTimerDone; Viewer.Rerender; Viewer.ClickNext]) < 3)%Z.
Proof.
  apply (index_stays_in_range 3
           [Viewer.ClickPrev; Viewer.Rerender; Viewer.VideoEnded;
            Viewer.PhotoTimerDone; Viewer.Rerender; Viewer.ClickNext]).
  lia.
Defined.

(** ** Wheel and touch handlers *)

Lemma onWheel_small_delta (now deltaY : Q) (h : Gesture.hook) :
  Qabs deltaY < 20 -> Gesture.onWheel now deltaY h = (h, Gesture.NavNone).
Proof.
  intro Hd. unfold Gesture.onWheel.
  destruct (Gesture.isThrottled h); [reflexivity|].
  apply ltb_lt in Hd. unfold Gesture.wheelDeltaThreshold. rewrite Hd.
  reflexivity.
Qed.

Lemma onWheel_throttled (now deltaY : Q) (h : Gesture.hook) :
  Gesture.isThrottled h = true ->
  Gesture.onWheel now deltaY h = (h, Gesture.NavNone).
Proof. intro Ht. unfold Gesture.onWheel. rewrite Ht. reflexivity. Qed.

(** C6. A wheel event whose [deltaY] has magnitude below 20 calls neither
    [next()] nor [prev()] and leaves the index, and the whole viewer, as it
    was. *)
Theorem wheel_noise_keeps_index
  (total : Z) (v : Viewer.viewer) (t deltaY : Q) :
  Qabs deltaY < 20 ->
  snd (Gesture.onWheel t deltaY (Viewer.hook v)) = Gesture.NavNone /\
  Viewer.index (Viewer.act total v (Viewer.Input (Gesture.Wheel t deltaY)))
  = Viewer.index v /\
  Viewer.act total v (Viewer.Input (Gesture.Wheel t deltaY)) = v.
Proof.
  intro Hd. cbn.
  rewrite (onWheel_small_delta t deltaY (Viewer.hook v) Hd). cbn.
  destruct v; repeat split.
Qed.

Lemma wheel_noise_keeps_index_witness :
  snd (Gesture.onWheel 10 (-19) (Viewer.hook Viewer.initial)) = Gesture.NavNone /\
  Viewer.index
    (Viewer.act 4 Viewer.initial (Viewer.Input (Gesture.Wheel 10 (-19))))
  = Viewer.index Viewer.initial /\
  Viewer.act 4 Viewer.initial (Viewer.Input (Gesture.Wheel 10 (-19)))
  = Viewer.initial.
Proof.
  apply (wheel_noise_keeps_index 4 Viewer.initial 10 (-19)).
  reflexivity.
Defined.

(** C10. A touch-end arriving while a start coordinate is missing returns at
    once: it does not throw (whatever [changedTouches] holds), it calls
    neither [next()] nor [prev()], and hook and viewer are unchanged. *)
Theorem touchend_without_start_is_skipped
  (total : Z) (v : Viewer.viewer) (t : Q) (changed : list Gesture.touch) :
  Gesture.touchStartX (Viewer.hook v) = None \/
  Gesture.touchStartY (Viewer.hook v) = None ->
  Gesture.onTouchEnd changed (Viewer.hook v)
  = Gesture.Done (Viewer.hook v) Gesture.NavNone /\
  Viewer.act total v (Viewer.Input (Gesture.TouchEnd t changed)) = v.
Proof.
  intro H.
  assert (E : Gesture.onTouchEnd changed (Viewer.hook v)
              = Gesture.Done (Viewer.hook v) Gesture.NavNone).
  { unfold Gesture.onTouchEnd.
    destruct H as [H|H]; rewrite H; [reflexivity|].
    destruct (Gesture.touchStartX (Viewer.hook v)); reflexivity. }
  split; [exact E|].
  cbn. rewrite E. cbn. destruct v; reflexivity.
Qed.

Lemma touchend_without_start_is_skipped_witness :
  Gesture.onTouchEnd [] (Viewer.hook Viewer.initial)
  = Gesture.Done (Viewer.hook Viewer.initial) Gesture.NavNone /\
  Viewer.act 4 Viewer.initial (Viewer.Input (Gesture.TouchEnd 7 []))
  = Viewer.initial.
Proof.
  apply (touchend_without_start_is_skipped 4 Viewer.initial 7 []).
  left. reflexivity.
Defined.

(** C4. On touch-end with both start coordinates recorded, a callback is
    invoked if and only if [|dx| > |dy|] and [|dx| > 40]; it is [next()] when
    [dx < 0] and [prev()] otherwise.  So [dx = -50, dy = 5] calls [next()]
    and [dx = 20, dy = 5] calls nothing. *)
Theorem swipe_navigates_iff_horizontal_and_long
  (h : Gesture.hook) (sx sy : Q) (t : Gesture.touch) (rest : list Gesture.touch) :
  Gesture.touchStartX h = Some sx ->
  Gesture.touchStartY h = Some sy ->
  let dx := Gesture.clientX t - sx in
  let dy := Gesture.clientY t - sy in
  exists h' n,
    Gesture.onTouchEnd (t :: rest) h = Gesture.Done h' n /\
    (n <> Gesture.NavNone <-> Qabs dy < Qabs dx /\ 40 < Qabs dx) /\
    (n <> Gesture.NavNone ->
       (dx < 0 -> n = Gesture.NavNext) /\ (0 <= dx -> n = Gesture.NavPrev)) /\
    (dx == -50 -> dy == 5 -> n = Gesture.NavNext) /\
    (dx == 20 -> dy == 5 -> n = Gesture.NavNone).
Proof.
  intros Hx Hy dx dy.
  unfold Gesture.onTouchEnd. rewrite Hx, Hy.
  fold dx dy. unfold Gesture.swipeThresholdPx.
  eexists; eexists; split; [reflexivity|].
  set (n := if JS.ltb (Qabs dy) (Qabs dx) && JS.ltb 40 (Qabs dx)
            then (if JS.ltb dx 0 then Gesture.NavNext else Gesture.NavPrev)
            else Gesture.NavNone).
  assert (Hiff : n <> Gesture.NavNone <-> Qabs dy < Qabs dx /\ 40 < Qabs dx).
  { unfold n. rewrite <- !ltb_lt, <- andb_true_iff.
    destruct (JS.ltb (Qabs dy) (Qabs dx) && JS.ltb 40 (Qabs dx)).
    - split; [reflexivity|]. intros _. destruct (JS.ltb dx 0); discriminate.
    - split; [intro H; exfalso; apply H; reflexivity | discriminate]. }
  assert (Hdir : n <> Gesture.NavNone ->
                 (dx < 0 -> n = Gesture.NavNext) /\
                 (0 <= dx -> n = Gesture.NavPrev)).
  { unfold n.
    destruct (JS.ltb (Qabs dy) (Qabs dx) && JS.ltb 40 (Qabs dx));
      [|intro H; exfalso; apply H; reflexivity].
    intros _. destruct (JS.ltb dx 0) eqn:Es.
    - apply ltb_lt in Es. split; [reflexivity|].
      intro Hd. exfalso. apply (Qlt_not_le _ _ Es Hd).
    - apply ltb_ge in Es. split; [|reflexivity].
      intro Hd. exfalso. apply (Qlt_not_le _ _ Hd Es). }
  split; [exact Hiff|]. split; [exact Hdir|]. split.
  - intros Hdx Hdy.
    assert (Hn : n <> Gesture.NavNone).
    { apply Hiff. rewrite Hdx, Hdy. split; reflexivity. }
    apply (Hdir Hn). rewrite Hdx. reflexivity.
  - intros Hdx _.
    assert (Hshort : ~ (Qabs dy < Qabs dx /\ 40 < Qabs dx)).
    { intros [_ Hlong]. rewrite Hdx in Hlong.
      revert Hlong. apply Qle_not_lt. discriminate. }
    destruct n; [reflexivity | exfalso | exfalso];
      apply Hshort, Hiff; discriminate.
Qed.

Lemma swipe_navigates_iff_horizontal_and_long_witness :
  exists h' n,
    Gesture.onTouchEnd
      [{| Gesture.clientX := 50; Gesture.clientY := 205 |}]
      {| Gesture.touchStartX := Some 100; Gesture.touchStartY := Some 200;
         Gesture.isThrottled := false; Gesture.timers := [] |}
    = Gesture.Done h' n /\
    n = Gesture.NavNext.
Proof.
  destruct (swipe_navigates_iff_horizontal_and_long
              {| Gesture.touchStartX := Some 100; Gesture.touchStartY := Some 200;
                 Gesture.isThrottled := false; Gesture.timers := [] |}
              100 200
              {| Gesture.clientX := 50; Gesture.clientY := 205 |} []
              eq_refl eq_refl)
    as (h' & n & E & _ & _ & Hnext & _).
  exists h', n. split; [exact E|].
  apply Hnext; reflexivity.
Defined.

(** ** The wheel throttle *)

Section Throttle.

Import Gesture.

Lemma exec_cons_inv clock h e es out :
  exec clock h (e :: es) = Some out ->
  enabled clock h e = true /\
  exists out',
    out = (e, snd (handle h e)) :: out' /\
    exec (time_of e) (fst (handle h e)) es = Some out'.
Proof.
  cbn [exec].
  destruct (enabled clock h e); [|discriminate].
  destruct (handle h e) as [h' n]. cbn [fst snd].
  destruct (exec (time_of e) h' es) as [out'|]; [|discriminate].
  cbn. intro E. injection E as <-.
  split; [reflexivity|]. exists out'. split; reflexivity.
Qed.

Lemma enabled_clock clock h e : enabled clock h e = true -> clock <= time_of e.
Proof.
  unfold enabled. intro H. apply andb_true_iff in H as [H _].
  apply Qle_bool_iff, H.
Qed.

(** Events are handled in time order. *)
Lemma exec_after_clock es :
  forall clock h out j e n,
    exec clock h es = Some out ->
    nth_error out j = Some (e, n) ->
    clock <= time_of e.
Proof.
  induction es as [|e0 es IH]; intros clock h out j e n Hx Hj.
  - cbn in Hx. injection Hx as <-. destruct j; discriminate.
  - apply exec_cons_inv in Hx as [Hen (out' & -> & Hx)].
    apply enabled_clock in Hen.
    destruct j as [|j]; cbn in Hj.
    + injection Hj as <- _. exact Hen.
    + apply (Qle_trans _ (time_of e0)); [exact Hen|].
      eapply IH; eassumption.
Qed.

Lemma handle_timer_inv h e : timer_inv h -> timer_inv (fst (handle h e)).
Proof.
  intro Hinv. destruct e as [t dl|t|t ts|t c|t ts]; cbn [handle].
  - unfold onWheel.
    destruct Hinv as [[Hf Ht]|[Hf Ht]]; rewrite Hf.
    + destruct (JS.ltb (Qabs dl) wheelDeltaThreshold); cbn [fst].
      * left. split; assumption.
      * right. split; [reflexivity|]. cbn [timers]. rewrite Ht.
        eexists. reflexivity.
    + right. split; assumption.
  - left. split; [reflexivity|]. cbn.
    destruct Hinv as [[_ Ht]|[_ [d Ht]]]; rewrite Ht; reflexivity.
  - destruct ts; cbn; exact Hinv.
  - exact Hinv.
  - unfold onTouchEnd.
    destruct (touchStartX h), (touchStartY h), ts; cbn; exact Hinv.
Qed.

(** A wheel event that invoked a callback found the hook unthrottled and
    left it throttled, with one more timer due 400ms later. *)
Lemma onWheel_navigated now dl h :
  snd (onWheel now dl h) <> NavNone ->
  isThrottled h = false /\
  isThrottled (fst (onWheel now dl h)) = true /\
  timers (fst (onWheel now dl h)) = timers h ++ [now + 400].
Proof.
  unfold onWheel.
  destruct (isThrottled h); cbn; [intro H; exfalso; apply H; reflexivity|].
  destruct (JS.ltb (Qabs dl) wheelDeltaThreshold); cbn;
    [intro H; exfalso; apply H; reflexivity|].
  intros _. repeat split.
Qed.

(** While the flag is set and its one timer is due at [d], every wheel
    event handled before [d] is dropped. *)
Lemma throttled_until d es :
  forall clock h out j t dl n,
    isThrottled h = true ->
    timers h = [d] ->
    exec clock h es = Some out ->
    nth_error out j = Some (Wheel t dl, n) ->
    t < d ->
    n = NavNone.
Proof.
  induction es as [|e0 es IH]; intros clock h out j t dl n Hf Ht Hx Hj Hlt.
  - cbn in Hx. injection Hx as <-. destruct j; discriminate.
  - apply exec_cons_inv in Hx as [Hen (out' & -> & Hx)].
    destruct j as [|j]; cbn in Hj.
    + injection Hj as -> <-. cbn.
      rewrite (onWheel_throttled t dl h Hf). reflexivity.
    + destruct e0 as [t0 dl0|t0|t0 ts|t0 c|t0 ts].
      * cbn in Hx. rewrite (onWheel_throttled t0 dl0 h Hf) in Hx.
        eapply IH; eassumption.
      * (* the timer ran: the clock has reached [d] *)
        exfalso.
        unfold enabled in Hen. rewrite Ht in Hen.
        apply andb_true_iff in Hen as [_ Hd]. apply Qle_bool_iff in Hd.
        pose proof (exec_after_clock _ _ _ _ _ _ _ Hx Hj) as Hc.
        cbn in Hc, Hd. apply (Qlt_not_le _ _ Hlt).
        apply (Qle_trans _ t0); assumption.
      * cbn in Hx. destruct ts; cbn in Hx;
          (eapply IH; [| |exact Hx|exact Hj|exact Hlt]; cbn; assumption).
      * cbn in Hx. eapply IH; eassumption.
      * cbn in Hx. unfold onTouchEnd in Hx.
        destruct (touchStartX h), (touchStartY h), ts; cbn in Hx;
          (eapply IH; [| |exact Hx|exact Hj|exact Hlt]; cbn; assumption).
Qed.

Lemma throttle_gap es :
  forall clock h out i j t1 d1 n1 t2 d2 n2,
    timer_inv h ->
    exec clock h es = Some out ->
    (i < j)%nat ->
    nth_error out i = Some (Wheel t1 d1, n1) ->
    nth_error out j = Some (Wheel t2 d2, n2) ->
    n1 <> NavNone ->
    t2 < t1 + 400 ->
    n2 = NavNone.
Proof.
  induction es as [|e0 es IH];
    intros clock h out i j t1 d1 n1 t2 d2 n2 Hinv Hx Hij Hi Hj Hn Hlt.
  - cbn in Hx. injection Hx as <-. destruct i; discriminate.
  - apply exec_cons_inv in Hx as [Hen (out' & -> & Hx)].
    destruct j as [|j]; [inversion Hij|]. cbn in Hj.
    destruct i as [|i]; cbn in Hi.
    + injection Hi as -> <-. cbn in Hn, Hx.
      apply onWheel_navigated in Hn as (Hf & Hf' & Ht').
      destruct Hinv as [[_ Ht]|[Hf2 _]]; [|congruence].
      rewrite Ht in Ht'. cbn in Ht'.
      eapply (throttled_until (t1 + 400)); eassumption.
    + apply (IH (time_of e0) (fst (handle h e0)) out' i j t1 d1 n1 t2 d2 n2);
        try assumption.
      * apply handle_timer_inv, Hinv.
      * apply Nat.succ_lt_mono, Hij.
Qed.

End Throttle.

(** C5. In any possible run of the hook from its mounted state, if a wheel
    event invoked [next()] or [prev()] at time [t1], a later wheel event at a
    time [t2 < t1 + 400] invokes nothing; so of two wheel events less than
    400ms apart at most one navigates. *)
Theorem wheel_throttle_window
  (clock : Q) (es : list Gesture.event) (out : list (Gesture.event * Gesture.nav))
  (i j : nat) (t1 d1 t2 d2 : Q) (n1 n2 : Gesture.nav) :
  Gesture.exec clock Gesture.mounted es = Some out ->
  (i < j)%nat ->
  nth_error out i = Some (Gesture.Wheel t1 d1, n1) ->
  nth_error out j = Some (Gesture.Wheel t2 d2, n2) ->
  t2 < t1 + 400 ->
  (n1 <> Gesture.NavNone -> n2 = Gesture.NavNone) /\
  (n1 = Gesture.NavNone \/ n2 = Gesture.NavNone).
Proof.
  intros Hx Hij Hi Hj Hlt.
  assert (Hinv : Gesture.timer_inv Gesture.mounted)
    by (left; split; reflexivity).
  assert (H : n1 <> Gesture.NavNone -> n2 = Gesture.NavNone).
  { intro Hn.
    exact (throttle_gap es clock Gesture.mounted out i j t1 d1 n1 t2 d2 n2
             Hinv Hx Hij Hi Hj Hn Hlt). }
  split; [exact H|].
  destruct n1; [left; reflexivity | right; apply H; discriminate
               | right; apply H; discriminate].
Qed.

Lemma wheel_throttle_window_witness :
  Gesture.exec 0 Gesture.mounted
    [Gesture.Wheel 0 30; Gesture.Wheel 399 30;
     Gesture.Timeout 400; Gesture.Wheel 450 (-30)]
  = Some [(Gesture.Wheel 0 30, Gesture.NavNext);
          (Gesture.Wheel 399 30, Gesture.NavNone);
          (Gesture.Timeout 400, Gesture.NavNone);
          (Gesture.Wheel 450 (-30), Gesture.NavPrev)] /\
  (Gesture.NavNext <> Gesture.NavNone -> Gesture.NavNone = Gesture.NavNone) /\
  (Gesture.NavNext = Gesture.NavNone \/ Gesture.NavNone = Gesture.NavNone).
Proof.
  split; [reflexivity|].
  apply (wheel_throttle_window 0
           [Gesture.Wheel 0 30; Gesture.Wheel 399 30;
            Gesture.Timeout 400; Gesture.Wheel 450 (-30)]
           [(Gesture.Wheel 0 30, Gesture.NavNext);
            (Gesture.Wheel 399 30, Gesture.NavNone);
            (Gesture.Timeout 400, Gesture.NavNone);
            (Gesture.Wheel 450 (-30), Gesture.NavPrev)]
           0 1 0 30 399 30 Gesture.NavNext Gesture.NavNone);
    first [reflexivity | lia].
Defined.

(** ** The photo timer *)

Section PhotoTimer.

Import Photo.

Variable total : Z.

Lemma progress_complete_iff (start now : Q) :
  1 <= Qmin 1 ((now - start) / durationMs) <-> start + 5000 <= now.
Proof.
  unfold durationMs. rewrite Q.min_glb_iff.
  assert (E : now - start == 5000 * ((now - start) / 5000)) by field.
  split.
  - intros [_ H]. lra.
  - intro H. split; [lra|]. apply Qle_shift_div_l; lra.
Qed.

(** One frame of a running timer. *)
Lemma frame_running (now : Q) (p : page) :
  raf p = true ->
  progress (fst (frame total now p))
  = Qmin 1 ((now - startTs p) / durationMs) /\
  (startTs p + 5000 <= now ->
     snd (frame total now p) = Gesture.NavNext /\
     raf (fst (frame total now p)) = false /\
     index (fst (frame total now p)) = Nav.next total (effectIndex p)) /\
  (now < startTs p + 5000 ->
     snd (frame total now p) = Gesture.NavNone /\
     raf (fst (frame total now p)) = true /\
     startTs (fst (frame total now p)) = startTs p).
Proof.
  intro Hr. unfold frame, step. rewrite Hr. cbn [startTs].
  destruct (Qle_bool 1 (Qmin 1 ((now - startTs p) / durationMs))) eqn:E;
    cbn.
  - apply Qle_bool_iff, progress_complete_iff in E.
    split; [reflexivity|]. split; [intros _; repeat split|].
    intro H. exfalso. apply (Qlt_not_le _ _ H E).
  - assert (Hlt : ~ startTs p + 5000 <= now).
    { intro H. apply progress_complete_iff, Qle_bool_iff in H. congruence. }
    split; [reflexivity|]. split; [|intros _; repeat split].
    intro H. exfalso. apply Hlt, H.
Qed.



Lemma frames_cons (now : Q) (ts : list Q) (p : page) :
  frames total p (now :: ts)
  = (fst (frames total (fst (frame total now p)) ts),
     snd (frame total now p)
       :: snd (frames total (fst (frame total now p)) ts)).
Proof.
  cbn [frames]. destruct (frame total now p) as [p1 n]. cbn [fst snd].
  destruct (frames total p1 ts) as [p2 ns]. reflexivity.
Qed.


End PhotoTimer.



(** ** The video timeline segment *)

Section VideoSegment.

Import Segment.

(** Whatever the element reports as its duration, the divisor is infinite
    or a number no smaller than 0.01. *)
Lemma clampedDuration_cases (v : video) :
  clampedDuration v = JS.PosInf \/
  exists d, clampedDuration v = JS.Fin d /\ (1 # 100) <= d.
Proof.
  unfold clampedDuration.
  destruct (duration v) as [|q| |]; cbn [JS.max JS.or].
  - right. eexists. split; [reflexivity|]. apply Q.le_max_l.
  - destruct (Qeq_bool q 0); cbn [JS.max];
      (right; eexists; split; [reflexivity|]; apply Q.le_max_l).
  - left. reflexivity.
  - right. eexists. split; [reflexivity|]. apply Qle_refl.
Qed.

Lemma div_by_clamped (x d : Q) :
  (1 # 100) <= d -> JS.div (JS.Fin x) (JS.Fin d) = JS.Fin (x / d).
Proof.
  intro Hd. cbn.
  destruct (Qeq_bool d 0) eqn:E; [|reflexivity].
  apply Qeq_bool_iff in E. rewrite E in Hd.
  exfalso. revert Hd. apply Qlt_not_le. reflexivity.
Qed.

Lemma ratio_in_unit_interval (x d : Q) :
  0 <= x -> (1 # 100) <= d -> 0 <= Qmin 1 (x / d) <= 1.
Proof.
  intros Hx Hd. split; [|apply Q.le_min_l].
  apply Q.min_glb; [discriminate|].
  apply Qle_shift_div_l; lra.
Qed.

End VideoSegment.






(** ** Progress across an index change *)

(** What does hold in the photo viewer: once the index has changed, the
    timer effect stores progress 0 and a fresh start time before it requests
    a frame, so the frames of the new item count from 0. *)
Lemma photo_effect_resets (total : Z) (now : Q) (p : Photo.page) :
  Photo.index p <> Photo.effectIndex p ->
  let p' := snd (Photo.commit total now p) in
  Photo.progress p' = 0 /\ Photo.startTs p' = now /\ Photo.raf p' = true /\
  forall t,
    Photo.progress (fst (Photo.frame total t p'))
    = Qmin 1 ((t - now) / 5000).
Proof.
  intro Hne. unfold Photo.commit. cbn [snd].
  destruct (Z.eqb_spec (Photo.index p) (Photo.effectIndex p)) as [E|_];
    [contradiction|].
  repeat split.
  intro t.
  destruct (frame_running total t (Photo.effect now p) eq_refl) as (Ep & _).
  exact Ep.
Qed.

(** In the video viewer a segment that was deactivated (with its video
    element known) is rendered with width 0 both while inactive and on the
    render that makes it active again. *)
Lemma segment_reactivated_from_zero (v : Segment.video) (s : Segment.segment) :
  let s' := Segment.effect false (Some v) s in
  Segment.render false s = JS.Fin 0 /\
  Segment.render true s' = JS.Fin (0 * 100) /\
  Segment.frame v s' = s'.
Proof. repeat split. Qed.

(** C8 (failing run). Photo viewer, four items, mounted at time 0.  A frame
    at 2500ms stores progress 1/2 for item 0; [next()] then makes the index
    1.  The render for index 1 draws the bar of item 1 at 50 percent, the
    progress of item 0; only the effect run after that render stores 0.
    Likewise after the automatic advance at 5000ms the bar of item 1 is
    first drawn at 100 percent. *)
Theorem photo_switch_renders_stale_progress :
  let p1 := fst (Photo.frame Photo.imageCount 2500 (Photo.mount 0)) in
  let p2 := Photo.dispatch Photo.imageCount p1 Gesture.NavNext in
  let q1 := fst (Photo.frame Photo.imageCount 5000 (Photo.mount 0)) in
  (Photo.index p1 = 0%Z /\ Photo.progress p1 == 1 # 2) /\
  (Photo.index p2 = 1%Z /\
   nth 1 (fst (Photo.commit Photo.imageCount 2516 p2)) 0 == 50 /\
   Photo.progress (snd (Photo.commit Photo.imageCount 2516 p2)) == 0 /\
   nth 1 (Photo.render Photo.imageCount
            (snd (Photo.commit Photo.imageCount 2516 p2))) 0 == 0) /\
  (Photo.index q1 = 1%Z /\
   snd (Photo.frame Photo.imageCount 5000 (Photo.mount 0)) = Gesture.NavNext /\
   nth 1 (fst (Photo.commit Photo.imageCount 5016 q1)) 0 == 100 /\
   Photo.progress (snd (Photo.commit Photo.imageCount 5016 q1)) == 0).
Proof.
  vm_compute. repeat split.
Qed.

(* ================================================================== *)
(** * Further properties of the code *)

(** ** Navigation *)

(** X1. With [n > 0] items and the index [i] in [[0, n)], [prev()] followed
    by [next()] gives [i] back: together with the converse round trip,
    [next] and [prev] are inverse permutations of the valid indices. *)
Theorem prev_then_next_roundtrip (n i : Z) :
  (0 < n)%Z -> (0 <= i < n)%Z -> Nav.next n (Nav.prev n i) = i.
Proof.
  intros Hn Hi. unfold Nav.prev, Nav.next.
  rewrite (go_mod n Hn (i - 1)) by lia.
  assert (Hm : (0 <= (i - 1) mod n < n)%Z) by (apply Z.mod_pos_bound, Hn).
  rewrite go_mod by lia.
  destruct (Z.eq_dec i 0) as [E|E].
  - subst i.
    replace (0 - 1)%Z with (n - 1 + (-1) * n)%Z by lia.
    rewrite Z.mod_add by lia. rewrite (Z.mod_small (n - 1)) by lia.
    replace (n - 1 + 1)%Z with n by lia. apply Z.mod_same. lia.
  - rewrite (Z.mod_small (i - 1)) by lia.
    replace (i - 1 + 1)%Z with i by lia. apply Z.mod_small. lia.
Qed.

Lemma prev_then_next_roundtrip_witness : Nav.next 3 (Nav.prev 3 0) = 0%Z.
Proof. apply (prev_then_next_roundtrip 3 0); lia. Defined.

Lemma next_mod (n i : Z) :
  (0 < n)%Z -> (0 <= i < n)%Z -> Nav.next n i = ((i + 1) mod n)%Z.
Proof. intros Hn Hi. unfold Nav.next. apply go_mod; lia. Qed.

Lemma run_app (n : Z) (v : Viewer.viewer) (a b : list Viewer.action) :
  Viewer.run n v (a ++ b) = Viewer.run n (Viewer.run n v a) b.
Proof. unfold Viewer.run. apply fold_left_app. Qed.

(** X2. From a rendered viewer with index [i] in [[0, n)], [k] calls of
    [next()], each followed by its render, lead to index [(i + k) mod n]; in
    particular [n] calls lead back to [i]. *)
Theorem next_k_times (n : Z) (v : Viewer.viewer) (k : nat) :
  (0 < n)%Z ->
  (0 <= Viewer.index v < n)%Z ->
  Viewer.seen v = Viewer.index v ->
  Viewer.index
    (Viewer.run n v (concat (repeat [Viewer.ClickNext; Viewer.Rerender] k)))
  = ((Viewer.index v + Z.of_nat k) mod n)%Z /\
  Viewer.index
    (Viewer.run n v
       (concat (repeat [Viewer.ClickNext; Viewer.Rerender] (Z.to_nat n))))
  = Viewer.index v.
Proof.
  intros Hn Hi Hs.
  assert (H : forall k' w,
             (0 <= Viewer.index w < n)%Z ->
             Viewer.seen w = Viewer.index w ->
             Viewer.index
               (Viewer.run n w
                  (concat (repeat [Viewer.ClickNext; Viewer.Rerender] k')))
             = ((Viewer.index w + Z.of_nat k') mod n)%Z).
  { induction k' as [|k' IH]; intros w Hw Hsw.
    - cbn. rewrite Z.add_0_r. symmetry. apply Z.mod_small, Hw.
    - cbn [repeat concat]. rewrite run_app.
      rewrite IH.
      + cbn. rewrite Hsw, next_mod by assumption.
        rewrite Zplus_mod_idemp_l. f_equal. lia.
      + cbn. rewrite Hsw. apply next_range; assumption.
      + reflexivity. }
  split; [apply H; assumption|].
  rewrite H by assumption.
  rewrite Z2Nat.id by lia.
  replace (Viewer.index v + n)%Z with (Viewer.index v + 1 * n)%Z by lia.
  rewrite Z.mod_add by lia. apply Z.mod_small, Hi.
Qed.

Lemma next_k_times_witness :
  Viewer.index
    (Viewer.run 3 Viewer.initial
       (concat (repeat [Viewer.ClickNext; Viewer.Rerender] 5)))
  = ((Viewer.index Viewer.initial + Z.of_nat 5) mod 3)%Z /\
  Viewer.index
    (Viewer.run 3 Viewer.initial
       (concat (repeat [Viewer.ClickNext; Viewer.Rerender] (Z.to_nat 3))))
  = Viewer.index Viewer.initial.
Proof.
  apply (next_k_times 3 Viewer.initial 5); cbn; first [lia | reflexivity].
Defined.

(** X3. Below [-n] the single wrap of [go] is not enough: for [n > 0] and
    [i < -n] the stored value lies in [(-n, 0]], so it is never one of the
    indices [1 .. n-1]. *)
Theorem go_below_range_is_not_positive (n i : Z) :
  (0 < n)%Z -> (i < - n)%Z -> (- n < Nav.go n i <= 0)%Z.
Proof.
  intros Hn Hi. unfold Nav.go.
  replace (i + n)%Z with (- (- (i + n)))%Z by lia.
  rewrite Z.rem_opp_l by lia.
  pose proof (Z.rem_bound_pos (- (i + n)) n ltac:(lia) Hn). lia.
Qed.

Lemma go_below_range_is_not_positive_witness : (- 4 < Nav.go 4 (-7) <= 0)%Z.
Proof. apply (go_below_range_is_not_positive 4 (-7)); lia. Defined.

Lemma act_same_render (n : Z) (v : Viewer.viewer) (a : Viewer.action) :
  a <> Viewer.Rerender ->
  Viewer.seen (Viewer.act n v a) = Viewer.seen v /\
  (Viewer.index (Viewer.act n v a) = Viewer.index v \/
   Viewer.index (Viewer.act n v a) = Nav.next n (Viewer.seen v) \/
   Viewer.index (Viewer.act n v a) = Nav.prev n (Viewer.seen v)).
Proof.
  intro Ha. destruct a; cbn; try (split; [reflexivity|]; auto); try contradiction.
  destruct (Gesture.handle (Viewer.hook v) e) as [h' k].
  destruct k; cbn; split; auto.
Qed.

(** X4. The callbacks of one render all start from the index of that
    render: however many clicks, gestures and timer completions are handled
    before React renders again, the index ends up unchanged, or at
    [next] of the rendered index, or at [prev] of it -- never two steps
    away. *)
Theorem one_step_per_render
  (n : Z) (v : Viewer.viewer) (acts : list Viewer.action) :
  Session.same_render acts ->
  Viewer.seen v = Viewer.index v ->
  Viewer.index (Viewer.run n v acts) = Viewer.index v \/
  Viewer.index (Viewer.run n v acts) = Nav.next n (Viewer.index v) \/
  Viewer.index (Viewer.run n v acts) = Nav.prev n (Viewer.index v).
Proof.
  intros Hacts Hs.
  assert (H : forall w,
             Viewer.seen w = Viewer.index v ->
             (Viewer.index w = Viewer.index v \/
              Viewer.index w = Nav.next n (Viewer.index v) \/
              Viewer.index w = Nav.prev n (Viewer.index v)) ->
             Viewer.index (Viewer.run n w acts) = Viewer.index v \/
             Viewer.index (Viewer.run n w acts) = Nav.next n (Viewer.index v) \/
             Viewer.index (Viewer.run n w acts) = Nav.prev n (Viewer.index v)).
  { unfold Viewer.run.
    induction Hacts as [|a acts Ha _ IH]; intros w Hw Hi; [exact Hi|].
    cbn [fold_left].
    destruct (act_same_render n w a Ha) as [Es Ei].
    apply IH.
    - rewrite Es. exact Hw.
    - rewrite Hw in Ei. destruct Ei as [Ei|Ei]; [rewrite Ei; exact Hi|].
      right. exact Ei. }
  apply H; [exact Hs | left; reflexivity].
Qed.

Lemma one_step_per_render_witness :
  Viewer.index
    (Viewer.run 4 Viewer.initial
       [Viewer.ClickNext; Viewer.ClickNext; Viewer.PhotoTimerDone])
  = Viewer.index Viewer.initial \/
  Viewer.index
    (Viewer.run 4 Viewer.initial
       [Viewer.ClickNext; Viewer.ClickNext; Viewer.PhotoTimerDone])
  = Nav.next 4 (Viewer.index Viewer.initial) \/
  Viewer.index
    (Viewer.run 4 Viewer.initial
       [Viewer.ClickNext; Viewer.ClickNext; Viewer.PhotoTimerDone])
  = Nav.prev 4 (Viewer.index Viewer.initial).
Proof.
  apply (one_step_per_render 4 Viewer.initial
           [Viewer.ClickNext; Viewer.ClickNext; Viewer.PhotoTimerDone]).
  - repeat constructor; discriminate.
  - reflexivity.
Defined.

(** ** The hook over whole runs *)

Lemma hook_after_snoc (h : Gesture.hook) (es : list Gesture.event)
  (e : Gesture.event) :
  Session.hook_after h (es ++ [e])
  = fst (Gesture.handle (Session.hook_after h es) e).
Proof. unfold Session.hook_after. rewrite fold_left_app. reflexivity. Qed.

Lemma hook_after_timer_inv (es : list Gesture.event) :
  forall h, Gesture.timer_inv h -> Gesture.timer_inv (Session.hook_after h es).
Proof.
  unfold Session.hook_after.
  induction es as [|e es IH]; intros h Hinv; [exact Hinv|].
  cbn [fold_left]. apply IH, handle_timer_inv, Hinv.
Qed.

(** X5. Whatever events the hook has handled since it was mounted, at most
    one [setTimeout] callback is pending, and one is pending exactly when the
    hook is throttled: timers never pile up and the flag never stays set
    without a timer to clear it. *)
Theorem throttle_has_one_timer (es : list Gesture.event) :
  (length (Gesture.timers (Session.hook_after Gesture.mounted es)) <= 1)%nat /\
  (Gesture.isThrottled (Session.hook_after Gesture.mounted es) = true <->
   Gesture.timers (Session.hook_after Gesture.mounted es) <> []).
Proof.
  assert (Hinv : Gesture.timer_inv (Session.hook_after Gesture.mounted es)).
  { apply hook_after_timer_inv. left. split; reflexivity. }
  destruct Hinv as [[Hf Ht]|[Hf [d Ht]]]; rewrite Hf, Ht; cbn.
  - split; [lia|]. split; [discriminate|]. intro H. exfalso. apply H. reflexivity.
  - split; [lia|]. split; [discriminate|reflexivity].
Qed.

(** X6. An unthrottled hook acts on every wheel event whose [deltaY] has
    magnitude 20 or more (20 itself included): it calls [next()] when
    [deltaY] is positive and [prev()] when it is negative, becomes throttled,
    and leaves the recorded touch start alone. *)
Theorem wheel_navigates_from_threshold (now deltaY : Q) (h : Gesture.hook) :
  Gesture.isThrottled h = false ->
  20 <= Qabs deltaY ->
  (0 < deltaY -> snd (Gesture.onWheel now deltaY h) = Gesture.NavNext) /\
  (deltaY < 0 -> snd (Gesture.onWheel now deltaY h) = Gesture.NavPrev) /\
  snd (Gesture.onWheel now deltaY h) <> Gesture.NavNone /\
  Gesture.isThrottled (fst (Gesture.onWheel now deltaY h)) = true /\
  Gesture.touchStartX (fst (Gesture.onWheel now deltaY h))
  = Gesture.touchStartX h /\
  Gesture.touchStartY (fst (Gesture.onWheel now deltaY h))
  = Gesture.touchStartY h.
Proof.
  intros Hf Hd. unfold Gesture.onWheel. rewrite Hf.
  apply ltb_ge in Hd. unfold Gesture.wheelDeltaThreshold. rewrite Hd.
  cbn [fst snd Gesture.isThrottled Gesture.touchStartX Gesture.touchStartY].
  destruct (JS.ltb 0 deltaY) eqn:E.
  - apply ltb_lt in E. repeat split; try discriminate.
    intro H. exfalso. apply (Qlt_irrefl 0).
    apply (Qlt_trans _ deltaY); assumption.
  - apply ltb_ge in E. repeat split; try discriminate.
    intro H. exfalso. apply (Qlt_not_le _ _ H E).
Qed.

Lemma wheel_navigates_from_threshold_witness :
  (0 < -20 -> snd (Gesture.onWheel 0 (-20) Gesture.mounted) = Gesture.NavNext) /\
  (-20 < 0 -> snd (Gesture.onWheel 0 (-20) Gesture.mounted) = Gesture.NavPrev) /\
  snd (Gesture.onWheel 0 (-20) Gesture.mounted) <> Gesture.NavNone /\
  Gesture.isThrottled (fst (Gesture.onWheel 0 (-20) Gesture.mounted)) = true /\
  Gesture.touchStartX (fst (Gesture.onWheel 0 (-20) Gesture.mounted))
  = Gesture.touchStartX Gesture.mounted /\
  Gesture.touchStartY (fst (Gesture.onWheel 0 (-20) Gesture.mounted))
  = Gesture.touchStartY Gesture.mounted.
Proof.
  apply (wheel_navigates_from_threshold 0 (-20) Gesture.mounted).
  - reflexivity.
  - discriminate.
Defined.

(** X7. Once the timer callback has run, nothing is left pending and the
    hook is unthrottled, whatever it handled before; so the next wheel event
    of magnitude 20 or more navigates again and opens one new 400ms
    window. *)
Theorem throttle_released_by_timer
  (es : list Gesture.event) (t now deltaY : Q) :
  20 <= Qabs deltaY ->
  let h := Session.hook_after Gesture.mounted (es ++ [Gesture.Timeout t]) in
  Gesture.isThrottled h = false /\
  Gesture.timers h = [] /\
  snd (Gesture.onWheel now deltaY h) <> Gesture.NavNone /\
  Gesture.timers (fst (Gesture.onWheel now deltaY h)) = [now + 400].
Proof.
  intros Hd h.
  assert (Hinv : Gesture.timer_inv (Session.hook_after Gesture.mounted es)).
  { apply hook_after_timer_inv. left. split; reflexivity. }
  assert (Hh : Gesture.isThrottled h = false /\ Gesture.timers h = []).
  { unfold h. rewrite hook_after_snoc. cbn.
    split; [reflexivity|].
    destruct Hinv as [[_ Ht]|[_ [d Ht]]]; rewrite Ht; reflexivity. }
  destruct Hh as [Hf Ht].
  split; [exact Hf|]. split; [exact Ht|].
  unfold Gesture.onWheel. rewrite Hf.
  apply ltb_ge in Hd. unfold Gesture.wheelDeltaThreshold. rewrite Hd.
  cbn. rewrite Ht. split; [|reflexivity].
  destruct (JS.ltb 0 deltaY); discriminate.
Qed.

Lemma throttle_released_by_timer_witness :
  Gesture.isThrottled
    (Session.hook_after Gesture.mounted
       ([Gesture.Wheel 0 30] ++ [Gesture.Timeout 400])) = false /\
  Gesture.timers
    (Session.hook_after Gesture.mounted
       ([Gesture.Wheel 0 30] ++ [Gesture.Timeout 400])) = [] /\
  snd (Gesture.onWheel 450 25
         (Session.hook_after Gesture.mounted
            ([Gesture.Wheel 0 30] ++ [Gesture.Timeout 400])))
  <> Gesture.NavNone /\
  Gesture.timers
    (fst (Gesture.onWheel 450 25
            (Session.hook_after Gesture.mounted
               ([Gesture.Wheel 0 30] ++ [Gesture.Timeout 400]))))
  = [450 + 400].
Proof.
  apply (throttle_released_by_timer [Gesture.Wheel 0 30] 400 450 25).
  discriminate.
Defined.

(** ** Touch gestures *)

(** The choice [onTouchEnd] makes from the displacement. *)
Lemma swipe_choice (dx dy : Q) (n : Gesture.nav) :
  n = (if JS.ltb (Qabs dy) (Qabs dx) && JS.ltb 40 (Qabs dx)
       then (if JS.ltb dx 0 then Gesture.NavNext else Gesture.NavPrev)
       else Gesture.NavNone) ->
  (n = Gesture.NavNext <-> Qabs dy < Qabs dx /\ 40 < Qabs dx /\ dx < 0) /\
  (n = Gesture.NavPrev <-> Qabs dy < Qabs dx /\ 40 < Qabs dx /\ 0 <= dx).
Proof.
  intros ->.
  rewrite <- !ltb_lt, <- ltb_ge.
  destruct (JS.ltb (Qabs dy) (Qabs dx)), (JS.ltb 40 (Qabs dx)),
    (JS.ltb dx 0); cbn; split; split;
    first [ discriminate
          | intros (H1 & H2 & H3); discriminate
          | intros _; repeat split
          | reflexivity ].
Qed.

(** X8. A whole gesture -- touch-start at [t0], touch-end at [t1] -- depends
    only on the displacement between the two touches: it calls [next()]
    exactly when [|dx| > |dy|], [|dx| > 40] and [dx < 0], and [prev()]
    exactly when [|dx| > |dy|], [|dx| > 40] and [dx >= 0].  An earlier
    recorded start and the wheel throttle play no part, and the start is
    cleared afterwards. *)
Theorem gesture_by_displacement
  (h : Gesture.hook) (t0 t1 : Gesture.touch) (r0 r1 : list Gesture.touch) :
  let dx := Gesture.clientX t1 - Gesture.clientX t0 in
  let dy := Gesture.clientY t1 - Gesture.clientY t0 in
  let n := snd (Session.gesture (t0 :: r0) (t1 :: r1) h) in
  (n = Gesture.NavNext <-> Qabs dy < Qabs dx /\ 40 < Qabs dx /\ dx < 0) /\
  (n = Gesture.NavPrev <-> Qabs dy < Qabs dx /\ 40 < Qabs dx /\ 0 <= dx) /\
  fst (Session.gesture (t0 :: r0) (t1 :: r1) h)
  = {| Gesture.touchStartX := None; Gesture.touchStartY := None;
       Gesture.isThrottled := Gesture.isThrottled h;
       Gesture.timers := Gesture.timers h |}.
Proof.
  intros dx dy n.
  destruct (swipe_choice dx dy n eq_refl) as [Hnext Hprev].
  split; [exact Hnext|]. split; [exact Hprev|]. reflexivity.
Qed.

(** X9. A touch-end that returns leaves the hook such that any further
    touch-end calls nothing and changes nothing, until a new touch-start:
    one touch-start gives at most one navigation. *)
Theorem touchend_consumes_start
  (h h' : Gesture.hook) (n : Gesture.nav)
  (changed changed' : list Gesture.touch) :
  Gesture.onTouchEnd changed h = Gesture.Done h' n ->
  Gesture.onTouchEnd changed' h' = Gesture.Done h' Gesture.NavNone.
Proof.
  unfold Gesture.onTouchEnd.
  destruct (Gesture.touchStartX h) as [sx|] eqn:Ex;
    destruct (Gesture.touchStartY h) as [sy|] eqn:Ey.
  - destruct changed as [|t rest]; [discriminate|].
    intro E. injection E as <- _. reflexivity.
  - intro E. injection E as <- _. rewrite Ex, Ey. reflexivity.
  - intro E. injection E as <- _. rewrite Ex. reflexivity.
  - intro E. injection E as <- _. rewrite Ex. reflexivity.
Qed.

Lemma touchend_consumes_start_witness :
  Gesture.onTouchEnd [{| Gesture.clientX := 300; Gesture.clientY := 0 |}]
    {| Gesture.touchStartX := None; Gesture.touchStartY := None;
       Gesture.isThrottled := false; Gesture.timers := [] |}
  = Gesture.Done
      {| Gesture.touchStartX := None; Gesture.touchStartY := None;
         Gesture.isThrottled := false; Gesture.timers := [] |}
      Gesture.NavNone.
Proof.
  apply (touchend_consumes_start
           {| Gesture.touchStartX := Some 100; Gesture.touchStartY := Some 0;
              Gesture.isThrottled := false; Gesture.timers := [] |}
           _ Gesture.NavNext
           [{| Gesture.clientX := 10; Gesture.clientY := 0 |}]).
  reflexivity.
Defined.

Lemma handle_touch_keeps_throttle (h : Gesture.hook) (e : Gesture.event) :
  Session.is_touch e = true ->
  Gesture.isThrottled (fst (Gesture.handle h e)) = Gesture.isThrottled h /\
  Gesture.timers (fst (Gesture.handle h e)) = Gesture.timers h.
Proof.
  destruct e as [t dl|t|t ts|t c|t ts]; cbn; try discriminate; intros _.
  - destruct ts; cbn; split; reflexivity.
  - split; reflexivity.
  - unfold Gesture.onTouchEnd.
    destruct (Gesture.touchStartX h), (Gesture.touchStartY h), ts; cbn;
      split; reflexivity.
Qed.

Lemma handle_wheel_keeps_start (h : Gesture.hook) (e : Gesture.event) :
  Session.is_touch e = false ->
  Gesture.touchStartX (fst (Gesture.handle h e)) = Gesture.touchStartX h /\
  Gesture.touchStartY (fst (Gesture.handle h e)) = Gesture.touchStartY h.
Proof.
  destruct e as [t dl|t|t ts|t c|t ts]; cbn; try discriminate; intros _.
  - unfold Gesture.onWheel.
    destruct (Gesture.isThrottled h); [split; reflexivity|].
    destruct (JS.ltb (Qabs dl) Gesture.wheelDeltaThreshold);
      split; reflexivity.
  - split; reflexivity.
Qed.

Lemma handle_wheel_by_throttle (h1 h2 : Gesture.hook) (e : Gesture.event) :
  Session.is_touch e = false ->
  Gesture.isThrottled h1 = Gesture.isThrottled h2 ->
  Gesture.timers h1 = Gesture.timers h2 ->
  Gesture.isThrottled (fst (Gesture.handle h1 e))
  = Gesture.isThrottled (fst (Gesture.handle h2 e)) /\
  Gesture.timers (fst (Gesture.handle h1 e))
  = Gesture.timers (fst (Gesture.handle h2 e)).
Proof.
  destruct e as [t dl|t|t ts|t c|t ts]; cbn; try discriminate;
    intros _ Hf Ht.
  - unfold Gesture.onWheel. rewrite Hf.
    destruct (Gesture.isThrottled h2) eqn:E2; cbn; [split; congruence|].
    destruct (JS.ltb (Qabs dl) Gesture.wheelDeltaThreshold); cbn;
      [split; congruence|].
    rewrite Ht. split; reflexivity.
  - rewrite Ht. split; reflexivity.
Qed.

Lemma handle_touch_by_start (h1 h2 : Gesture.hook) (e : Gesture.event) :
  Session.is_touch e = true ->
  Gesture.touchStartX h1 = Gesture.touchStartX h2 ->
  Gesture.touchStartY h1 = Gesture.touchStartY h2 ->
  Gesture.touchStartX (fst (Gesture.handle h1 e))
  = Gesture.touchStartX (fst (Gesture.handle h2 e)) /\
  Gesture.touchStartY (fst (Gesture.handle h1 e))
  = Gesture.touchStartY (fst (Gesture.handle h2 e)).
Proof.
  destruct e as [t dl|t|t ts|t c|t ts]; cbn; try discriminate;
    intros _ Hx Hy.
  - destruct ts; cbn; split; first [assumption | reflexivity].
  - split; assumption.
  - unfold Gesture.onTouchEnd. rewrite Hx, Hy.
    destruct (Gesture.touchStartX h2) eqn:Ex, (Gesture.touchStartY h2) eqn:Ey,
      ts; cbn; split; congruence.
Qed.

Lemma families_separate (es : list Gesture.event) :
  forall h hw ht,
    Gesture.isThrottled h = Gesture.isThrottled hw ->
    Gesture.timers h = Gesture.timers hw ->
    Gesture.touchStartX h = Gesture.touchStartX ht ->
    Gesture.touchStartY h = Gesture.touchStartY ht ->
    let h' := Session.hook_after h es in
    let hw' := Session.hook_after hw (filter Session.is_wheel es) in
    let ht' := Session.hook_after ht (filter Session.is_touch es) in
    Gesture.isThrottled h' = Gesture.isThrottled hw' /\
    Gesture.timers h' = Gesture.timers hw' /\
    Gesture.touchStartX h' = Gesture.touchStartX ht' /\
    Gesture.touchStartY h' = Gesture.touchStartY ht'.
Proof.
  unfold Session.hook_after, Session.is_wheel.
  induction es as [|e es IH]; intros h hw ht Hf Ht Hx Hy; cbn [filter fold_left].
  - repeat split; assumption.
  - destruct (Session.is_touch e) eqn:E; cbn [negb fold_left].
    + destruct (handle_touch_keeps_throttle h e E) as [Hf' Ht'].
      destruct (handle_touch_by_start h ht e E Hx Hy) as [Hx' Hy'].
      apply IH; congruence.
    + destruct (handle_wheel_keeps_start h e E) as [Hx' Hy'].
      destruct (handle_wheel_by_throttle h hw e E Hf Ht) as [Hf' Ht'].
      apply IH; congruence.
Qed.

(** X10. Wheel and touch do not interfere.  After any sequence of events,
    the throttle flag and the pending timers are what the wheel events and
    timer callbacks alone would have produced, and the recorded touch start
    is what the touch events alone would have produced. *)
Theorem wheel_and_touch_independent (h : Gesture.hook) (es : list Gesture.event) :
  Gesture.isThrottled (Session.hook_after h es)
  = Gesture.isThrottled
      (Session.hook_after h (filter Session.is_wheel es)) /\
  Gesture.timers (Session.hook_after h es)
  = Gesture.timers (Session.hook_after h (filter Session.is_wheel es)) /\
  Gesture.touchStartX (Session.hook_after h es)
  = Gesture.touchStartX
      (Session.hook_after h (filter Session.is_touch es)) /\
  Gesture.touchStartY (Session.hook_after h es)
  = Gesture.touchStartY
      (Session.hook_after h (filter Session.is_touch es)).
Proof.
  apply (families_separate es h h h); reflexivity.
Qed.

(** ** Overlay visibility *)

Lemma overlay_step_parity (s : Overlay.overlay) (a : Overlay.action) (c : nat) :
  Overlay.seenVisible s = Overlay.visible s ->
  Overlay.visible s = Nat.even c ->
  let s' := Overlay.act (Overlay.act s a) Overlay.Render in
  Overlay.seenVisible s' = Overlay.visible s' /\
  Overlay.visible s' = Nat.even (Overlay.count_taps c a).
Proof.
  intros Hs Hv. destruct a as [t| |]; cbn.
  - split; [reflexivity|].
    unfold Overlay.click.
    destruct (Overlay.bubbles t); [|destruct t; cbn; exact Hv].
    rewrite Nat.even_succ, <- Nat.negb_even, <- Hv.
    destruct t; reflexivity.
  - split; [reflexivity|].
    unfold Overlay.onMove. rewrite Hs.
    destruct (Overlay.visible s) eqn:E; cbn; [exact E|reflexivity].
  - split; [reflexivity|exact Hv].
Qed.

(** X11. With React rendering after every event, the overlay is visible
    exactly when an even number of clicks has reached the root element since
    the last mouse move (or since mounting).  Clicks on Previous, Next and
    Menu do not count; clicks on the background, the logo, the close button
    of the menu and its anchors do. *)
Theorem overlay_visible_by_parity (acts : list Overlay.action) :
  Overlay.visible (Overlay.run Overlay.initial acts)
  = Nat.even (Overlay.taps_since_move acts).
Proof.
  unfold Overlay.run, Overlay.taps_since_move.
  assert (H : forall s c,
             Overlay.seenVisible s = Overlay.visible s ->
             Overlay.visible s = Nat.even c ->
             Overlay.visible
               (fold_left (fun s' a => Overlay.act (Overlay.act s' a) Overlay.Render)
                  acts s)
             = Nat.even (fold_left Overlay.count_taps acts c)).
  { induction acts as [|a acts IH]; intros s c Hs Hv; [exact Hv|].
    cbn [fold_left].
    destruct (overlay_step_parity s a c Hs Hv) as [Hs' Hv'].
    apply IH; assumption. }
  apply H; reflexivity.
Qed.

(** ** The video elements *)

Lemma lookup_autoplayFrom (index : Z) (allowed : bool) (l : Player.refs) :
  forall i k,
    Player.lookup k (Player.autoplayFrom index allowed i l)
    = match Player.lookup k l with
      | None => None
      | Some e =>
          Some (if (Z.of_nat (i + k) =? index)%Z
                then Player.play allowed
                       {| Player.currentTime := 0;
                          Player.paused := Player.paused e |}
                else Player.pause e)
      end.
Proof.
  unfold Player.lookup.
  induction l as [|v l IH]; intros i k.
  - destruct k; reflexivity.
  - destruct k as [|k]; cbn.
    + rewrite Nat.add_0_r. destruct v; reflexivity.
    + rewrite IH. replace (S i + k)%nat with (i + S k)%nat by lia.
      reflexivity.
Qed.

(** X12. After the autoplay effect has run for [index], no element held in
    [videoRefs.current] at a slot other than [index] is playing, whatever
    those elements were doing before and whether or not the browser allowed
    [play()].  (The effect visits the array only: an element that is no
    longer held there is out of its reach.) *)
Theorem autoplay_only_current_plays
  (index : Z) (allowed : bool) (l : Player.refs) (k : nat) (e : Player.element) :
  Player.lookup k (Player.autoplay index allowed l) = Some e ->
  Player.paused e = false ->
  Z.of_nat k = index.
Proof.
  unfold Player.autoplay. rewrite lookup_autoplayFrom. cbn [Nat.add].
  destruct (Player.lookup k l) as [e0|]; [|discriminate].
  destruct (Z.eqb_spec (Z.of_nat k) index) as [E|E].
  - intros _ _. exact E.
  - intro H. injection H as <-. cbn. discriminate.
Qed.

Lemma autoplay_only_current_plays_witness :
  Player.lookup 1
    (Player.autoplay 1 true
       [Some {| Player.currentTime := 7; Player.paused := false |};
        Some {| Player.currentTime := 3; Player.paused := true |}])
  = Some {| Player.currentTime := 0; Player.paused := false |} /\
  Z.of_nat 1 = 1%Z.
Proof.
  split; [reflexivity|].
  apply (autoplay_only_current_plays 1 true
           [Some {| Player.currentTime := 7; Player.paused := false |};
            Some {| Player.currentTime := 3; Player.paused := true |}]
           1 {| Player.currentTime := 0; Player.paused := false |});
    reflexivity.
Defined.

(** X13. The autoplay effect keeps the array as it is slot by slot: a hole
    stays a hole; the video at [index] is rewound to 0 and plays if the
    browser allows it (otherwise it keeps its paused flag); every other video
    is paused and keeps its position. *)
Theorem autoplay_slot_by_slot
  (index : Z) (allowed : bool) (l : Player.refs) (k : nat) :
  length (Player.autoplay index allowed l) = length l /\
  Player.lookup k (Player.autoplay index allowed l)
  = match Player.lookup k l with
    | None => None
    | Some e =>
        Some (if (Z.of_nat k =? index)%Z
              then {| Player.currentTime := 0;
                      Player.paused :=
                        if allowed then false else Player.paused e |}
              else {| Player.currentTime := Player.currentTime e;
                      Player.paused := true |})
    end.
Proof.
  split.
  - unfold Player.autoplay. generalize 0%nat.
    induction l as [|v l IH]; intro i; cbn; [reflexivity|].
    rewrite IH. reflexivity.
  - unfold Player.autoplay. rewrite lookup_autoplayFrom. reflexivity.
Qed.

Lemma lookup_assign_same (i : nat) (el : Player.element) :
  forall l, Player.lookup i (Player.assign i el l) = Some el.
Proof.
  unfold Player.lookup.
  induction i as [|i IH]; intros [|x l]; cbn; try reflexivity; apply IH.
Qed.

Lemma lookup_assign_other (i : nat) (el : Player.element) :
  forall j l, j <> i ->
    Player.lookup j (Player.assign i el l) = Player.lookup j l.
Proof.
  unfold Player.lookup.
  induction i as [|i IH]; intros j [|x l] Hj; destruct j as [|j]; cbn;
    try reflexivity; try contradiction.
  - destruct j; reflexivity.
  - rewrite IH by lia. destruct j; reflexivity.
  - apply IH. lia.
Qed.

Lemma length_assign (i : nat) (el : Player.element) :
  forall l, length (Player.assign i el l) = Nat.max (length l) (S i).
Proof.
  induction i as [|i IH]; intros [|x l]; cbn; try reflexivity.
  - destruct (length l); reflexivity.
  - rewrite IH. reflexivity.
  - rewrite IH. reflexivity.
Qed.

(** X14. Storing a ref and reading the array back: slot [i] then holds the
    element, every other slot reads as before, and the array is as long as
    before or just long enough to include slot [i]. *)
Theorem ref_store_then_read
  (i j : nat) (el : Player.element) (l : Player.refs) :
  Player.lookup i (Player.setRef i (Some el) l) = Some el /\
  (j <> i ->
   Player.lookup j (Player.setRef i (Some el) l) = Player.lookup j l) /\
  length (Player.setRef i (Some el) l) = Nat.max (length l) (S i).
Proof.
  cbn [Player.setRef]. split; [apply lookup_assign_same|].
  split; [apply lookup_assign_other|apply length_assign].
Qed.

(** X15. A slot of the ref array that holds an element never reads as
    [undefined] again, whatever ref callbacks follow -- also those React
    calls with [null] when an element is removed. *)
Theorem ref_stays_defined
  (calls : list (nat * option Player.element)) (l : Player.refs) (j : nat) :
  Player.lookup j l <> None ->
  Player.lookup j (Player.setRefs calls l) <> None.
Proof.
  unfold Player.setRefs. revert l.
  induction calls as [|[i el] calls IH]; intros l Hl; [exact Hl|].
  cbn [fold_left fst snd]. apply IH.
  destruct el as [e|]; cbn [Player.setRef]; [|exact Hl].
  destruct (Nat.eq_dec j i) as [->|Hj].
  - rewrite lookup_assign_same. discriminate.
  - rewrite lookup_assign_other by exact Hj. exact Hl.
Qed.

Lemma ref_stays_defined_witness :
  Player.lookup 0
    (Player.setRefs
       [(0%nat, None);
        (2%nat, Some {| Player.currentTime := 0; Player.paused := true |})]
       [Some {| Player.currentTime := 5; Player.paused := false |}])
  <> None.
Proof.
  apply (ref_stays_defined
           [(0%nat, None);
            (2%nat, Some {| Player.currentTime := 0; Player.paused := true |})]
           [Some {| Player.currentTime := 5; Player.paused := false |}] 0).
  discriminate.
Defined.

(** ** A segment over its whole life *)

Lemma update_unit_number (v : Segment.video) (s : Segment.segment) :
  0 <= Segment.currentTime v ->
  Session.unit_number (Segment.progress (Segment.update v s)).
Proof.
  intro Hct. unfold Session.unit_number, Segment.update.
  cbn [Segment.progress].
  destruct (clampedDuration_cases v) as [E|(d & E & Hd)]; rewrite E.
  - exists 0. split; [reflexivity|]. split; discriminate.
  - rewrite (div_by_clamped _ _ Hd). cbn [JS.min].
    eexists. split; [reflexivity|].
    apply ratio_in_unit_interval; assumption.
Qed.

Lemma segment_step_unit_number (s : Segment.segment) (e : Session.segment_event) :
  match e with
  | Session.Frame v => 0 <= Segment.currentTime v
  | Session.Rerun _ _ => True
  end ->
  Session.unit_number (Segment.progress s) ->
  Session.unit_number (Segment.progress (Session.segment_step s e)).
Proof.
  intros He Hs. destruct e as [active [v|]|v]; cbn.
  - destruct active; cbn; [exact Hs|].
    exists 0. split; [reflexivity|]. split; discriminate.
  - exact Hs.
  - unfold Segment.frame. destruct (Segment.raf s); [|exact Hs].
    apply update_unit_number, He.
Qed.

(** X16. Over the whole life of a segment -- any interleaving of effect
    runs (active or not, with or without a video element) and animation
    frames -- its progress is a number in [[0, 1]], never [NaN] or infinite,
    provided the element's [currentTime] is never negative. *)
Theorem segment_progress_always_in_unit_interval
  (es : list Session.segment_event) :
  Session.times_nonneg es ->
  Session.unit_number
    (Segment.progress (Session.segment_run Segment.initial es)).
Proof.
  intro Hes. unfold Session.segment_run.
  assert (H0 : Session.unit_number (Segment.progress Segment.initial)).
  { exists 0. split; [reflexivity|]. split; discriminate. }
  revert H0. generalize Segment.initial.
  induction Hes as [|e es He _ IH]; intros s Hs; [exact Hs|].
  cbn [fold_left]. apply IH, segment_step_unit_number; assumption.
Qed.

Lemma segment_progress_always_in_unit_interval_witness :
  Session.unit_number
    (Segment.progress
       (Session.segment_run Segment.initial
          [Session.Rerun true
             (Some {| Segment.duration := JS.NaN; Segment.currentTime := 0 |});
           Session.Frame
             {| Segment.duration := JS.Fin 10; Segment.currentTime := 4 |};
           Session.Frame
             {| Segment.duration := JS.PosInf; Segment.currentTime := 5 |};
           Session.Rerun false
             (Some {| Segment.duration := JS.Fin 10;
                      Segment.currentTime := 6 |})])).
Proof.
  apply (segment_progress_always_in_unit_interval
           [Session.Rerun true
              (Some {| Segment.duration := JS.NaN; Segment.currentTime := 0 |});
            Session.Frame
              {| Segment.duration := JS.Fin 10; Segment.currentTime := 4 |};
            Session.Frame
              {| Segment.duration := JS.PosInf; Segment.currentTime := 5 |};
            Session.Rerun false
              (Some {| Segment.duration := JS.Fin 10;
                       Segment.currentTime := 6 |})]).
  repeat constructor; discriminate.
Defined.

Lemma frames_keep_raf (vs : list Segment.video) :
  forall s,
    Segment.raf
      (Session.segment_run s (map Session.Frame vs)) = Segment.raf s /\
    (Segment.raf s = false ->
     Session.segment_run s (map Session.Frame vs) = s).
Proof.
  unfold Session.segment_run.
  induction vs as [|v vs IH]; intro s; cbn [map fold_left];
    [split; reflexivity|].
  cbn [Session.segment_step]. unfold Segment.frame.
  destruct (Segment.raf s) eqn:E.
  - destruct (IH (Segment.update v s)) as [Hr _].
    split; [exact Hr|discriminate].
  - destruct (IH s) as [Hr Hs]. split; [congruence|]. intros _. apply Hs, E.
Qed.

(** X17. The polling loop of a segment runs exactly while the segment is
    active with a video element: after an effect run, a frame callback stays
    pending through any number of animation frames if [active] holds and
    [videoRef] is defined, and otherwise none is pending and the frames
    change nothing. *)
Theorem segment_polls_only_while_active
  (s : Segment.segment) (active : bool) (videoRef : option Segment.video)
  (vs : list Segment.video) :
  let s' := Session.segment_step s (Session.Rerun active videoRef) in
  let polling :=
    active && match videoRef with Some _ => true | None => false end in
  Segment.raf (Session.segment_run s' (map Session.Frame vs)) = polling /\
  (polling = false -> Session.segment_run s' (map Session.Frame vs) = s').
Proof.
  intros s' polling.
  assert (Hr : Segment.raf s' = polling).
  { unfold s', polling. destruct active, videoRef; reflexivity. }
  destruct (frames_keep_raf vs s') as [H1 H2].
  split; [congruence|]. intro Hp. apply H2. congruence.
Qed.

(** ** The photo timer and timeline *)

Lemma timed_progress_bounds (start now : Q) :
  start <= now -> 0 <= Qmin 1 ((now - start) / 5000) <= 1.
Proof.
  intro H. split; [|apply Q.le_min_l].
  apply Q.min_glb; [discriminate|].
  apply Qle_shift_div_l; lra.
Qed.

Lemma timed_progress_mono (start t1 t2 : Q) :
  t1 <= t2 ->
  Qmin 1 ((t1 - start) / 5000) <= Qmin 1 ((t2 - start) / 5000).
Proof.
  intro H. apply Q.min_le_compat_l.
  apply Qle_shift_div_l; [reflexivity|].
  assert (E : t1 - start == (t1 - start) / 5000 * 5000) by field.
  lra.
Qed.

(** X18. Within one run of the photo timer, progress only grows: a frame at
    [t1], no earlier than the start, stores a value in [[0, 1]], and a later
    frame at [t2 >= t1] stores a value at least as large. *)
Theorem photo_progress_monotone
  (total : Z) (p : Photo.page) (t1 t2 : Q) :
  Photo.raf p = true ->
  Photo.startTs p <= t1 ->
  t1 <= t2 ->
  let p1 := fst (Photo.frame total t1 p) in
  0 <= Photo.progress p1 <= 1 /\
  Photo.progress p1 <= Photo.progress (fst (Photo.frame total t2 p1)).
Proof.
  intros Hr H1 H12 p1.
  destruct (frame_running total t1 p Hr) as (Ep & Hdone & Hgo).
  fold p1 in Ep, Hdone, Hgo.
  split; [rewrite Ep; apply timed_progress_bounds, H1|].
  destruct (Qlt_le_dec t1 (Photo.startTs p + 5000)) as [Hlt|Hge].
  - destruct (Hgo Hlt) as (_ & Er & Es).
    destruct (frame_running total t2 p1 Er) as (Ep2 & _ & _).
    rewrite Ep2, Ep, Es. apply timed_progress_mono, H12.
  - destruct (Hdone Hge) as (_ & Er & _).
    unfold Photo.frame at 1. rewrite Er. cbn [fst]. apply Qle_refl.
Qed.

Lemma photo_progress_monotone_witness :
  0 <= Photo.progress (fst (Photo.frame 4 1000 (Photo.mount 0))) <= 1 /\
  Photo.progress (fst (Photo.frame 4 1000 (Photo.mount 0)))
  <= Photo.progress
       (fst (Photo.frame 4 3000 (fst (Photo.frame 4 1000 (Photo.mount 0))))).
Proof.
  apply (photo_progress_monotone 4 (Photo.mount 0) 1000 3000);
    first [reflexivity | discriminate].
Defined.

(** X19. The timeline fills from the left: with progress in [[0, 1]], every
    bar has a width between 0 and 100 and no bar is wider than a bar before
    it. *)
Theorem timeline_fills_from_left (p : Photo.page) (i j : Z) :
  0 <= Photo.progress p <= 1 ->
  (i <= j)%Z ->
  0 <= Photo.barWidth p j /\
  Photo.barWidth p j <= Photo.barWidth p i /\
  Photo.barWidth p i <= 100.
Proof.
  intros [H0 H1] Hij. unfold Photo.barWidth.
  destruct (Z.eqb_spec i (Photo.index p)) as [Ei|Ei];
    destruct (Z.eqb_spec j (Photo.index p)) as [Ej|Ej];
    destruct (Z.ltb_spec i (Photo.index p)) as [Li|Li];
    destruct (Z.ltb_spec j (Photo.index p)) as [Lj|Lj];
    try lia; repeat split; try lra; discriminate.
Qed.

Lemma timeline_fills_from_left_witness :
  0 <= Photo.barWidth (fst (Photo.frame 4 2500 (Photo.mount 0))) 1 /\
  Photo.barWidth (fst (Photo.frame 4 2500 (Photo.mount 0))) 1
  <= Photo.barWidth (fst (Photo.frame 4 2500 (Photo.mount 0))) 0 /\
  Photo.barWidth (fst (Photo.frame 4 2500 (Photo.mount 0))) 0 <= 100.
Proof.
  apply (timeline_fills_from_left (fst (Photo.frame 4 2500 (Photo.mount 0))) 0 1).
  - split; discriminate.
  - lia.
Defined.

Lemma frames_before_deadline (total : Z) (ts : list Q) :
  forall p,
    Photo.raf p = true ->
    (forall t, In t ts -> t < Photo.startTs p + 5000) ->
    Photo.index (fst (Photo.frames total p ts)) = Photo.index p /\
    Photo.next_calls total ts p = 0%nat /\
    Photo.raf (fst (Photo.frames total p ts)) = true.
Proof.
  induction ts as [|now ts IH]; intros p Hr Hall.
  - repeat split. exact Hr.
  - assert (Hnow : now < Photo.startTs p + 5000) by (apply Hall; left; reflexivity).
    destruct (frame_running total now p Hr) as (_ & _ & Hgo).
    destruct (Hgo Hnow) as (En & Er & Es).
    assert (Ei : Photo.index (fst (Photo.frame total now p)) = Photo.index p).
    { unfold Photo.frame in En |- *. rewrite Hr in En |- *.
      destruct (Photo.step now _) as [p' n] eqn:E. cbn in En |- *. subst n.
      unfold Photo.step in E.
      destruct (Qle_bool 1 _) in E; injection E as <-; [discriminate|].
      reflexivity. }
    destruct (IH (fst (Photo.frame total now p)) Er) as (Hi & Hc & Hf).
    { intros t Ht. rewrite Es. apply Hall. right. exact Ht. }
    unfold Photo.next_calls in *. rewrite frames_cons. cbn [fst snd].
    rewrite En. cbn [filter Photo.calls_next].
    repeat split; [congruence|assumption|assumption].
Qed.

(** X20. Every item gets its full five seconds: once the timer effect has
    run at time [now], frames that come before [now + 5000] never call
    [next()] and leave the index alone, whatever the page's progress and
    start time were before. *)
Theorem photo_no_early_advance
  (total : Z) (now : Q) (p : Photo.page) (ts : list Q) :
  (forall t, In t ts -> t < now + 5000) ->
  Photo.next_calls total ts (Photo.effect now p) = 0%nat /\
  Photo.index (fst (Photo.frames total (Photo.effect now p) ts))
  = Photo.index p.
Proof.
  intro Hall.
  destruct (frames_before_deadline total ts (Photo.effect now p) eq_refl Hall)
    as (Hi & Hc & _).
  split; [exact Hc|exact Hi].
Qed.

Lemma photo_no_early_advance_witness :
  Photo.next_calls 4 [3016%Q; 5500%Q; 7999%Q]
    (Photo.effect 3000 (fst (Photo.frame 4 2500 (Photo.mount 0)))) = 0%nat /\
  Photo.index
    (fst (Photo.frames 4
            (Photo.effect 3000 (fst (Photo.frame 4 2500 (Photo.mount 0))))
            [3016%Q; 5500%Q; 7999%Q]))
  = Photo.index (fst (Photo.frame 4 2500 (Photo.mount 0))).
Proof.
  apply (photo_no_early_advance 4 3000
           (fst (Photo.frame 4 2500 (Photo.mount 0)))
           [3016%Q; 5500%Q; 7999%Q]).
  intros t [<-|[<-|[<-|[]]]]; reflexivity.
Defined.

Lemma next_moves (n i : Z) :
  (2 <= n)%Z -> (0 <= i < n)%Z -> Nav.next n i <> i.
Proof.
  intros Hn Hi. rewrite next_mod by lia.
  destruct (Z.eq_dec (i + 1) n) as [E|E].
  - rewrite E, Z.mod_same by lia. lia.
  - rewrite Z.mod_small by lia. lia.
Qed.

(** X21. With two or more images, the frame that completes an item hands
    over to the next one: after that frame and the render that follows, the
    index is [next] of the old one, progress is 0, the clock starts at the
    time the effect ran, and a frame is pending again. *)
Theorem photo_auto_advance_restarts
  (total : Z) (p : Photo.page) (now later : Q) :
  (2 <= total)%Z ->
  (0 <= Photo.index p < total)%Z ->
  Photo.effectIndex p = Photo.index p ->
  Photo.raf p = true ->
  Photo.startTs p + 5000 <= now ->
  Session.slideshow total p [(now, later)]
  = {| Photo.index := Nav.next total (Photo.index p);
       Photo.progress := 0;
       Photo.startTs := later;
       Photo.raf := true;
       Photo.effectIndex := Nav.next total (Photo.index p) |}.
Proof.
  intros Hn Hi He Hr Hnow. cbn [Session.slideshow].
  destruct (frame_running total now p Hr) as (_ & Hdone & _).
  destruct (Hdone Hnow) as (_ & _ & Ei).
  assert (Ee : Photo.effectIndex (fst (Photo.frame total now p))
               = Photo.effectIndex p).
  { unfold Photo.frame. rewrite Hr. unfold Photo.step.
    destruct (Qle_bool 1 _); reflexivity. }
  unfold Photo.commit. cbn [snd]. rewrite Ei, Ee, He.
  destruct (Z.eqb_spec (Nav.next total (Photo.index p)) (Photo.index p))
    as [E|_].
  - exfalso. exact (next_moves total (Photo.index p) Hn Hi E).
  - unfold Photo.effect. rewrite Ei, He. reflexivity.
Qed.

Lemma photo_auto_advance_restarts_witness :
  Session.slideshow 4 (Photo.mount 0) [(5000, 5016)]
  = {| Photo.index := Nav.next 4 (Photo.index (Photo.mount 0));
       Photo.progress := 0;
       Photo.startTs := 5016;
       Photo.raf := true;
       Photo.effectIndex := Nav.next 4 (Photo.index (Photo.mount 0)) |}.
Proof.
  apply (photo_auto_advance_restarts 4 (Photo.mount 0) 5000 5016);
    cbn; first [lia | reflexivity | discriminate].
Defined.

Lemma slideshow_stopped (ts : list (Q * Q)) (p : Photo.page) :
  Photo.raf p = false ->
  Photo.index p = Photo.effectIndex p ->
  Session.slideshow 1 p ts = p.
Proof.
  intros Hr Hi. induction ts as [|[now later] ts IH]; [reflexivity|].
  cbn [Session.slideshow]. unfold Photo.frame. rewrite Hr. cbn [fst].
  unfold Photo.commit. cbn [snd]. rewrite Hi, Z.eqb_refl. exact IH.
Qed.

(** X22. With a single image the slide show stops for good after its first
    five seconds: [next()] stores the same index, so the timer effect does
    not run again; the bar stays full, no frame is pending, and later frames
    and renders change nothing. *)
Theorem photo_single_image_stops
  (p : Photo.page) (now later : Q) (ts : list (Q * Q)) :
  Photo.index p = 0%Z ->
  Photo.effectIndex p = 0%Z ->
  Photo.raf p = true ->
  Photo.startTs p + 5000 <= now ->
  let p' := Session.slideshow 1 p [(now, later)] in
  Photo.index p' = 0%Z /\
  Photo.progress p' == 1 /\
  Photo.raf p' = false /\
  Session.slideshow 1 p ((now, later) :: ts) = p'.
Proof.
  intros Hi He Hr Hnow p'.
  destruct (frame_running 1 now p Hr) as (Ep & Hdone & _).
  destruct (Hdone Hnow) as (_ & Er & Ei).
  assert (Ee : Photo.effectIndex (fst (Photo.frame 1 now p)) = 0%Z).
  { unfold Photo.frame. rewrite Hr. unfold Photo.step.
    destruct (Qle_bool 1 _); exact He. }
  assert (Ei0 : Photo.index (fst (Photo.frame 1 now p)) = 0%Z).
  { rewrite Ei, He. reflexivity. }
  assert (Ep' : p' = fst (Photo.frame 1 now p)).
  { unfold p'. cbn [Session.slideshow]. unfold Photo.commit. cbn [snd].
    rewrite Ei0, Ee. reflexivity. }
  rewrite Ep'.
  split; [exact Ei0|]. split; [|split; [exact Er|]].
  - rewrite Ep. apply Qle_antisym; [apply Q.le_min_l|].
    apply progress_complete_iff, Hnow.
  - change (Session.slideshow 1 p ((now, later) :: ts))
      with (Session.slideshow 1 p' ts).
    rewrite Ep'. apply slideshow_stopped; [exact Er|congruence].
Qed.

Lemma photo_single_image_stops_witness :
  Photo.index (Session.slideshow 1 (Photo.mount 0) [(5000, 5016)]) = 0%Z /\
  Photo.progress (Session.slideshow 1 (Photo.mount 0) [(5000, 5016)]) == 1 /\
  Photo.raf (Session.slideshow 1 (Photo.mount 0) [(5000, 5016)]) = false /\
  Session.slideshow 1 (Photo.mount 0) [(5000, 5016); (5032, 5048)]
  = Session.slideshow 1 (Photo.mount 0) [(5000, 5016)].
Proof.
  apply (photo_single_image_stops (Photo.mount 0) 5000 5016 [(5032, 5048)]);
    first [reflexivity | discriminate].
Defined.
